(** * Package [resource]: discovery, indexing and filtering of API resources

    A shallow embedding of [pkg/framework/resource] (parse.go, filter.go,
    resource.go, resources.go) and the properties of its catalog.

    Go strings are byte sequences and are modelled by [string]; Go maps by
    stdpp's [gmap]; pointers by addresses into an explicit heap, because the
    code shares [*Resource] between two maps and shares backing arrays
    between slice headers. *)

From Stdlib Require Import String Ascii List Arith NArith Lia Bool Permutation Sorted.
From stdpp Require Import base option list gmap strings fin_maps sorting.

Set Warnings "-register-all,-clear-no-such-hyp".

(** ** Strings: the parts of package [strings] that the code calls *)

Module Strings.

(** [strings.Split(s, sep)] for a one-byte separator: all substrings of
    [s] between occurrences of [sep]. The result always has at least one
    element; in particular [Split("", "/")] is [[""]]. *)
Fixpoint Split (s : string) (sep : ascii) : list string :=
  match s with
  | EmptyString => [EmptyString]
  | String c rest =>
      if Ascii.eqb c sep then EmptyString :: Split rest sep
      else match Split rest sep with
           | [] => [String c EmptyString]
           | part :: parts => String c part :: parts
           end
  end.

(** [s[i:]] *)
Definition from (i : nat) (s : string) : string :=
  String.substring i (String.length s - i) s.

(** [strings.HasSuffix]:
    [len(s) >= len(suffix) && s[len(s)-len(suffix):] == suffix] *)
Definition HasSuffix (s suffix : string) : bool :=
  Nat.leb (String.length suffix) (String.length s)
  && String.eqb (from (String.length s - String.length suffix) s) suffix.

End Strings.

(** ** Descriptors and keys (k8s.io/apimachinery types) *)

(** [v1.APIResource] *)
Record APIResource := mkAPIResource {
  Name : string;
  SingularName : string;
  Namespaced : bool;
  Group : string;
  Version : string;
  Kind : string;
  Verbs : list string;
  ShortNames : list string;
  Categories : list string
}.

(** [v1.APIResourceList] *)
Record APIResourceList := mkAPIResourceList {
  GroupVersion : string;
  APIResources : list APIResource
}.

(** [schema.GroupVersion], [schema.GroupVersionKind] and
    [schema.GroupVersionResource] are structs of strings, built positionally
    in the code. *)
Definition GroupVersionT : Type := string * string.
Definition GroupVersionKind : Type := string * string * string.
Definition GroupVersionResource : Type := string * string * string.

(** [proto.Schema] is an interface of package kube-openapi; its values are
    opaque to this package and are identified by a handle. *)
Inductive Schema := SchemaRef (id : nat).

(** Go's [error] values, opaque as well. *)
Inductive error := Err (msg : string).

(** ** resource.go: catalog entities, and the heap they live in *)

(** A Go pointer: nil, or the address of an allocated object. *)
Definition ptr : Type := option nat.

(** A slice header: backing array, length and capacity, and whether the
    slice is nil ([s == nil]). The nil slice and the empty literal [[]T{}]
    both have length and capacity 0 and no backing storage; the literal is
    not nil, and Go's deep equality tells the two apart. *)
Record slice := mkSlice {
  s_base : ptr;
  s_len : nat;
  s_cap : nat;
  s_nil : bool
}.

(** The nil slice, the zero value of a slice field. *)
Definition nilSlice : slice := mkSlice None 0 0 true.

(** The literal [[]*SubResource{}]. *)
Definition emptySlice : slice := mkSlice None 0 0 false.

(** [Resource]; [Schema] is the embedded interface value, [None] when nil.
    [SubResources] is a [[]*SubResource]. *)
Record Resource := mkResource {
  rResource : APIResource;
  rApiGroupVersion : GroupVersionT;
  rSchema : option Schema;
  rSubResources : slice
}.

(** [SubResource]; [Parent] is a [*Resource]. *)
Record SubResource := mkSubResource {
  srResource : APIResource;
  srParent : ptr;
  srApiGroupVersion : GroupVersionT;
  srSchema : option Schema
}.

(** The heap: allocated [Resource]s, allocated [SubResource]s and backing
    arrays of [[]*SubResource], each addressed by position. Allocation
    appends, so an address is fresh exactly when it is the current length. *)
Record heap := mkHeap {
  hRes : list Resource;
  hSub : list SubResource;
  hArr : list (list ptr)
}.

Definition emptyHeap : heap := mkHeap [] [] [].

(** Computations on the heap that may panic (nil dereference, index out of
    range): [None] is the panic. *)
Definition M (A : Type) : Type := heap -> option (A * heap).

Definition ret {A} (a : A) : M A := fun h => Some (a, h).

Definition bind {A B} (m : M A) (f : A -> M B) : M B :=
  fun h => match m h with
           | Some (a, h') => f a h'
           | None => None
           end.

Definition panic {A} : M A := fun _ => None.

Notation "x <- m ;; k" := (bind m (fun x => k))
  (at level 100, m at next level, right associativity).
Notation "m ;;; k" := (bind m (fun _ => k))
  (at level 100, right associativity).

(** [&Resource{...}] *)
Definition newResource (R : Resource) : M ptr :=
  fun h => Some (Some (length (hRes h)),
                 mkHeap (hRes h ++ [R]) (hSub h) (hArr h)).

(** [*p] for a [*Resource] *)
Definition loadResource (p : ptr) : M Resource :=
  fun h => match p with
           | Some a => match hRes h !! a with
                       | Some R => Some (R, h)
                       | None => None
                       end
           | None => None
           end.

(** [*p = R] *)
Definition storeResource (p : ptr) (R : Resource) : M unit :=
  fun h => match p with
           | Some a => if decide (a < length (hRes h))
                       then Some (tt, mkHeap (<[a := R]> (hRes h)) (hSub h) (hArr h))
                       else None
           | None => None
           end.

(** [&SubResource{...}] *)
Definition newSubResource (sr : SubResource) : M ptr :=
  fun h => Some (Some (length (hSub h)),
                 mkHeap (hRes h) (hSub h ++ [sr]) (hArr h)).

(** [*p] for a [*SubResource] *)
Definition loadSubResource (p : ptr) : M SubResource :=
  fun h => match p with
           | Some a => match hSub h !! a with
                       | Some sr => Some (sr, h)
                       | None => None
                       end
           | None => None
           end.

Definition newArray (arr : list ptr) : M nat :=
  fun h => Some (length (hArr h), mkHeap (hRes h) (hSub h) (hArr h ++ [arr])).

Definition loadArray (base : ptr) : M (list ptr) :=
  fun h => match base with
           | Some a => match hArr h !! a with
                       | Some arr => Some (arr, h)
                       | None => None
                       end
           | None => None
           end.

(** [arr[i] = v] on the backing array at [base]. *)
Definition storeIndex (base : ptr) (i : nat) (v : ptr) : M unit :=
  fun h => match base with
           | Some a => match hArr h !! a with
                       | Some arr =>
                           if decide (i < length arr)
                           then Some (tt, mkHeap (hRes h) (hSub h)
                                            (<[a := <[i := v]> arr]> (hArr h)))
                           else None
                       | None => None
                       end
           | None => None
           end.

(** The elements [s[0] .. s[len(s)-1]], as a [range] loop over [s] reads
    them. An empty slice is ranged over without touching storage. *)
Definition sliceElems (s : slice) : M (list ptr) :=
  if Nat.eqb (s_len s) 0 then ret []
  else arr <- loadArray (s_base s) ;;
       if decide (s_len s <= length arr) then ret (take (s_len s) arr)
       else panic.

(** The capacity the runtime picks when [append] has to reallocate. The
    policy belongs to the Go runtime, not to this package; doubling is taken
    here, and nothing below depends on the choice beyond [needed <= cap]. *)
Definition growslice (oldcap needed : nat) : nat := Nat.max needed (2 * oldcap).

(** [append(s, v)]: writes in place when the capacity allows, and otherwise
    copies the elements to a new backing array. The result is never nil. *)
Definition append (s : slice) (v : ptr) : M slice :=
  if Nat.ltb (s_len s) (s_cap s)
  then storeIndex (s_base s) (s_len s) v ;;;
       ret (mkSlice (s_base s) (S (s_len s)) (s_cap s) false)
  else old <- sliceElems s ;;
       let newcap := growslice (s_cap s) (S (s_len s)) in
       a <- newArray (old ++ [v] ++ replicate (newcap - S (s_len s)) None) ;;
       ret (mkSlice (Some a) (S (s_len s)) newcap false).

Definition withSubResources (s : slice) (R : Resource) : Resource :=
  mkResource (rResource R) (rApiGroupVersion R) (rSchema R) s.

(** [Resources], the catalog type [map[string][]*Resource]. *)
Abbreviation Resources := (gmap string (list ptr)).

(** ** filter.go *)

(** The [Filter] interface with the implementations of the package, and
    [implFilter] for any other implementation whose two methods judge the
    entity they are handed. ([fieldFilter] is such an implementation: its
    resource method is [hasField] on the schema, its subresource method the
    embedded [emptyFilter]'s.) *)
Inductive Filter :=
| emptyFilter
| skipSubresourceFilter
| andFilter (Filters : list Filter)
| orFilter (Filters : list Filter)
| implFilter (res : Resource -> bool) (sub : SubResource -> bool).

Module Filters.

(** The [resource] method. The argument is the struct behind the
    [*Resource] the method receives. *)
Fixpoint resource (f : Filter) (r : Resource) : bool :=
  match f with
  | emptyFilter => true
  | skipSubresourceFilter => true
  | andFilter Filters =>
      (fix range (fs : list Filter) : bool :=
         match fs with
         | [] => true
         | f :: fs' => if negb (resource f r) then false else range fs'
         end) Filters
  | orFilter Filters =>
      (fix range (fs : list Filter) : bool :=
         match fs with
         | [] => false
         | f :: fs' => if resource f r then true else range fs'
         end) Filters
  | implFilter res _ => res r
  end.

(** The [subResource] method. *)
Fixpoint subResource (f : Filter) (sr : SubResource) : bool :=
  match f with
  | emptyFilter => true
  | skipSubresourceFilter =>
      negb (Strings.HasSuffix (Name (srResource sr)) "/status")
  | andFilter Filters =>
      (fix range (fs : list Filter) : bool :=
         match fs with
         | [] => true
         | f :: fs' => if negb (subResource f sr) then false else range fs'
         end) Filters
  | orFilter Filters =>
      (fix range (fs : list Filter) : bool :=
         match fs with
         | [] => false
         | f :: fs' => if subResource f sr then true else range fs'
         end) Filters
  | implFilter _ sub => sub sr
  end.

Definition NewEmptyFilter : Filter := emptyFilter.
Definition NewAndFilter : Filter := andFilter [].
Definition NewSkipSubresourceFilter : Filter := skipSubresourceFilter.
Definition NewOrFilter : Filter := orFilter [].

End Filters.

(** ** parse.go *)

(** The fields of [Parser] that [Resources] reads. [discovery] stands for
    the outcome of [p.discovery.ServerResources()], and [resources] for
    [p.resources.LookupResource], where [None] is the nil schema. *)
Record Parser := mkParser {
  resources : GroupVersionKind -> option Schema;
  discovery : list APIResourceList * option error;
  apiGroup : string;
  apiVersion : string
}.

Module Parse.

(** [subResource]: resource name, subresource name, and whether the
    descriptor is a subresource. The indexing [parts[0]] cannot fail on a
    result of [Split]; the last two branches keep the function total. *)
Definition subResource (resource : APIResource) : string * string * bool :=
  let parts := Strings.Split (Name resource) "/" in
  match parts with
  | p0 :: p1 :: _ => (p0, p1, true)
  | [p0] => (p0, "", false)
  | [] => ("", "", false)
  end.

(** [resource] *)
Definition resource (r : APIResource) : string * bool :=
  let '(n, _, b) := subResource r in (n, negb b).

Definition withGroup (g : string) (r : APIResource) : APIResource :=
  mkAPIResource (Name r) (SingularName r) (Namespaced r) g (Version r)
    (Kind r) (Verbs r) (ShortNames r) (Categories r).

Definition withVersion (v : string) (r : APIResource) : APIResource :=
  mkAPIResource (Name r) (SingularName r) (Namespaced r) (Group r) v
    (Kind r) (Verbs r) (ShortNames r) (Categories r).

(** [copyGroupVersion]: the destination after the call. *)
Definition copyGroupVersion (src dest : APIResource) : APIResource :=
  let dest := if Nat.eqb (String.length (Group dest)) 0
              then withGroup (Group src) dest else dest in
  let dest := if Nat.eqb (String.length (Group dest)) 0
              then withGroup "core" dest else dest in
  if Nat.eqb (String.length (Version dest)) 0
  then withVersion (Version src) dest else dest.

(** [splitGroupVersion], branch for branch. *)
Definition splitGroupVersion (groupVersion : string) : string * string :=
  let parts := Strings.Split groupVersion "/" in
  let group := if Nat.ltb 1 (length parts) then nth 0 parts "" else "" in
  let version :=
    if Nat.ltb 1 (length parts) then nth 1 parts ""
    else if Nat.ltb 0 (length parts) then nth 0 parts ""
    else "v1" in
  (group, version).

(** [defaultGroupVersion]: the descriptor after the call. The second
    assignment writes the [Group] field, as in the source. *)
Definition defaultGroupVersion (resource : APIResource) (group version : string)
  : APIResource :=
  let resource := if Nat.eqb (String.length (Group resource)) 0
                  then withGroup group resource else resource in
  if Nat.eqb (String.length (Version resource)) 0
  then withGroup version resource else resource.

(** [isGroupVersionMatch] *)
Definition isGroupVersionMatch (p : Parser) (group version : string) : bool :=
  if Nat.ltb 0 (String.length (apiGroup p)) && negb (String.eqb (apiGroup p) group)
  then false
  else if Nat.ltb 0 (String.length (apiVersion p))
          && negb (String.eqb (apiVersion p) version)
  then false
  else true.

(** [getOpenAPI] *)
Definition getOpenAPI (p : Parser) (group version kind : string)
  : option Schema :=
  resources p (group, version, kind).

(** The two indexes built by [indexResources]. *)
Definition indexes : Type := Resources * gmap GroupVersionResource ptr.

(** The inner loop of [indexResources], over [gv.APIResources]. The loop
    variable [r] is a copy of the element, so defaulting changes the copy
    that is stored in the new [Resource], not the announcement. *)
Fixpoint indexResources_range (p : Parser) (group version : string)
    (rs : list APIResource) (ix : indexes) : M indexes :=
  match rs with
  | [] => ret ix
  | r :: rs' =>
      let r := defaultGroupVersion r group version in
      let '(name, isRes) := resource r in
      if negb isRes then indexResources_range p group version rs' ix
      else match getOpenAPI p group version (Kind r) with
           | None => indexResources_range p group version rs' ix
           | Some newSchema =>
               newResource <- newResource
                 (mkResource r (group, version) (Some newSchema) nilSlice) ;;
               let '(resources, bygvr) := ix in
               indexResources_range p group version rs'
                 (<[name := default [] (resources !! name) ++ [newResource]]>
                    resources,
                  <[(group, version, Kind r) := newResource]> bygvr)
           end
  end.

(** The outer loop of [indexResources], over the announcements. *)
Fixpoint indexResources_gvs (p : Parser) (gvs : list APIResourceList)
    (ix : indexes) : M indexes :=
  match gvs with
  | [] => ret ix
  | gv :: gvs' =>
      let '(group, version) := splitGroupVersion (GroupVersion gv) in
      if negb (isGroupVersionMatch p group version)
      then indexResources_gvs p gvs' ix
      else ix' <- indexResources_range p group version (APIResources gv) ix ;;
           indexResources_gvs p gvs' ix'
  end.

(** [indexResources] *)
Definition indexResources (p : Parser) (gvs : list APIResourceList)
  : M indexes :=
  indexResources_gvs p gvs (∅, ∅).

(** The inner loop of [attachSubResources]. The lookup [bygvr[gvr]] is
    keyed by the resource name before the slash. *)
Fixpoint attachSubResources_range (p : Parser) (group version : string)
    (rs : list APIResource) (bygvr : gmap GroupVersionResource ptr)
  : M unit :=
  match rs with
  | [] => ret tt
  | r :: rs' =>
      let r := defaultGroupVersion r group version in
      let '(resourceName, _, isSubResource) := subResource r in
      if negb isSubResource
      then attachSubResources_range p group version rs' bygvr
      else match getOpenAPI p group version (Kind r) with
           | None => attachSubResources_range p group version rs' bygvr
           | Some newSchema =>
               let gvr := (group, version, resourceName) in
               match bygvr !! gvr with
               | None => attachSubResources_range p group version rs' bygvr
               | Some parent =>
                   subRes <- newSubResource
                     (mkSubResource r parent (group, version) (Some newSchema)) ;;
                   P <- loadResource parent ;;
                   subs <- append (rSubResources P) subRes ;;
                   storeResource parent (withSubResources subs P) ;;;
                   attachSubResources_range p group version rs' bygvr
               end
           end
  end.

(** The outer loop of [attachSubResources]. *)
Fixpoint attachSubResources_gvs (p : Parser) (gvs : list APIResourceList)
    (bygvr : gmap GroupVersionResource ptr) : M unit :=
  match gvs with
  | [] => ret tt
  | gv :: gvs' =>
      let '(group, version) := splitGroupVersion (GroupVersion gv) in
      if negb (isGroupVersionMatch p group version)
      then attachSubResources_gvs p gvs' bygvr
      else attachSubResources_range p group version (APIResources gv) bygvr ;;;
           attachSubResources_gvs p gvs' bygvr
  end.

(** [attachSubResources]; the result is the returned [error], always nil.
    The [resources] argument is not read by the body. *)
Definition attachSubResources (p : Parser) (gvs : list APIResourceList)
    (resources : Resources) (bygvr : gmap GroupVersionResource ptr)
  : M (option error) :=
  attachSubResources_gvs p gvs bygvr ;;; ret None.

(** [Resources]: the catalog ([None] for the nil map) and the error. *)
Definition Resources (p : Parser) : M (option Resources * option error) :=
  let '(gvs, err) := discovery p in
  match err with
  | Some e => ret (None, Some e)
  | None =>
      ix <- indexResources p gvs ;;
      let '(resources, byGVR) := ix in
      err <- attachSubResources p gvs resources byGVR ;;
      ret (Some resources, err)
  end.

End Parse.

(** ** resources.go *)

(** Byte-wise order on strings, the order of Go's [<=] on strings. *)
Definition String_le (s t : string) : Prop := String.leb s t = true.

#[global] Instance String_le_dec s t : Decision (String_le s t).
Proof. unfold String_le. apply _. Defined.

Module Sort.
(** [sort.Strings] of the standard library: sorts in increasing byte-wise
    order. Modelled by merge sort; a sorted rearrangement of a list of
    strings is unique, so the algorithm does not show in the result. *)
Definition Strings (l : list string) : list string :=
  merge_sort String_le l.
End Sort.

Module Resources.

(** [SortKeys]. A [range] over a map visits its entries in an order the
    runtime picks; [order] is that order. *)
Definition SortKeys (order : list (string * list ptr)) : list string :=
  let sorted := fold_left (fun sorted kv => sorted ++ [kv.1]) order [] in
  Sort.Strings sorted.

(** The loop of [filterSubResources]. *)
Fixpoint filterSubResources_range (filter : Filter) (vs : list ptr)
    (filtered : slice) : M slice :=
  match vs with
  | [] => ret filtered
  | v :: vs' =>
      sr <- loadSubResource v ;;
      if negb (Filters.subResource filter sr)
      then filterSubResources_range filter vs' filtered
      else filtered' <- append filtered v ;;
           filterSubResources_range filter vs' filtered'
  end.

(** [filterSubResources]: [resource] is passed by value, and [filtered]
    starts as the empty literal [[]*SubResource{}]. *)
Definition filterSubResources (resource : Resource) (filter : Filter)
  : M Resource :=
  vs <- sliceElems (rSubResources resource) ;;
  filtered <- filterSubResources_range filter vs emptySlice ;;
  ret (withSubResources filtered resource).

(** The inner loop of [Filter], over the resources [v] of one name [k]. *)
Fixpoint Filter_versions (filter : Filter) (k : string) (v : list ptr)
    (filtered : Resources) : M Resources :=
  match v with
  | [] => ret filtered
  | version :: v' =>
      R <- loadResource version ;;
      if negb (Filters.resource filter R)
      then Filter_versions filter k v' filtered
      else copy <- filterSubResources R filter ;;
           pcopy <- newResource copy ;;
           Filter_versions filter k v'
             (<[k := default [] (filtered !! k) ++ [pcopy]]> filtered)
  end.

(** The outer loop of [Filter], over the entries of the map. *)
Fixpoint Filter_range (filter : Filter) (order : list (string * list ptr))
    (filtered : Resources) : M Resources :=
  match order with
  | [] => ret filtered
  | (k, v) :: order' =>
      filtered' <- Filter_versions filter k v filtered ;;
      Filter_range filter order' filtered'
  end.

(** [Filter]; [order] lists the entries of the receiver in the order the
    [range] visits them. *)
Definition Filter (order : list (string * list ptr)) (filter : Filter)
  : M Resources :=
  Filter_range filter order ∅.

End Resources.

(** ** Reading a catalog out of the heap *)

(** What a caller can write into the subresource list of the resource at
    [p]: [p.SubResources = append(p.SubResources, v)] and
    [p.SubResources[i] = v]. *)
Definition appendSubResource (p v : ptr) : M unit :=
  R <- loadResource p ;;
  s <- append (rSubResources R) v ;;
  storeResource p (withSubResources s R).

Definition setSubResource (p : ptr) (i : nat) (v : ptr) : M unit :=
  R <- loadResource p ;;
  if decide (i < s_len (rSubResources R))
  then storeIndex (s_base (rSubResources R)) i v
  else panic.

(** A resource together with the subresources its list points to. *)
Definition entry : Type := Resource * list SubResource.

Definition loadSubResources (h : heap) (s : slice) : option (list SubResource) :=
  match sliceElems s h with
  | Some (vs, _) => mapM (fun v => fst <$> loadSubResource v h) vs
  | None => None
  end.

Definition loadEntry (h : heap) (p : ptr) : option entry :=
  match loadResource p h with
  | Some (R, _) =>
      match loadSubResources h (rSubResources R) with
      | Some subs => Some (R, subs)
      | None => None
      end
  | None => None
  end.

(** The content of a resource: its fields, with the subresource list read
    through to the [SubResource] values and the slice header (an address
    and a capacity, no content) left out. *)
Record ResourceView := mkView {
  vResource : APIResource;
  vApiGroupVersion : GroupVersionT;
  vSchema : option Schema;
  vSubResources : list SubResource
}.

Definition viewOf (e : entry) : ResourceView :=
  mkView (rResource e.1) (rApiGroupVersion e.1) (rSchema e.1) e.2.

Definition viewResource (h : heap) (p : ptr) : option ResourceView :=
  viewOf <$> loadEntry h p.

Definition viewList (h : heap) (ps : list ptr) : option (list ResourceView) :=
  mapM (viewResource h) ps.

(** The content of a catalog: for every key the contents of its resources,
    in order. *)
Definition viewCatalog (h : heap) (r : Resources)
  : gmap string (option (list ResourceView)) :=
  viewList h <$> r.

(** The content of a resource as Go's deep equality sees it: as above,
    together with whether the subresource list is nil. *)
Definition deepOf (e : entry) : ResourceView * bool :=
  (viewOf e, s_nil (rSubResources e.1)).

Definition deepList (h : heap) (ps : list ptr)
  : option (list (ResourceView * bool)) :=
  fmap deepOf <$> mapM (loadEntry h) ps.

(** The content of a catalog up to deep equality. A catalog is a map that
    is not nil; a name with at least one resource maps to a slice that is
    not nil, so the subresource lists are the only slices of a catalog
    that can be nil or empty. *)
Definition deepCatalog (h : heap) (r : Resources)
  : gmap string (option (list (ResourceView * bool))) :=
  deepList h <$> r.

(** The same content with a subresource list that is not nil. *)
Definition nonNil (d : ResourceView * bool) : ResourceView * bool := (d.1, false).

(** A catalog's content with every subresource list not nil. *)
Definition nonNilCatalog (d : gmap string (option (list (ResourceView * bool))))
  : gmap string (option (list (ResourceView * bool))) :=
  (λ o : option (list (ResourceView * bool)),
     (λ l : list (ResourceView * bool), nonNil <$> l) <$> o) <$> d.

(** Every pointer of the catalog, and every pointer of its subresource
    lists, points to an allocated object. *)
Definition validCatalog (h : heap) (r : Resources) : Prop :=
  ∀ k ps, r !! k = Some ps → is_Some (mapM (loadEntry h) ps).

(** [h'] has everything [h] has, at the same addresses. *)
Definition heap_ext (h h' : heap) : Prop :=
  hRes h `prefix_of` hRes h'
  ∧ hSub h `prefix_of` hSub h'
  ∧ hArr h `prefix_of` hArr h'.

(** A slice built since [h0] by [append] from the empty slice: it holds
    [vs], and its backing array, if it has one, was allocated after [h0]. *)
Definition ownedSlice (h0 h : heap) (s : slice) (vs : list ptr) : Prop :=
  s_len s = length vs
  ∧ s_len s ≤ s_cap s
  ∧ match s_base s with
    | None => s_cap s = 0
    | Some b => length (hArr h0) ≤ b
                ∧ ∃ arr, hArr h !! b = Some arr ∧ length arr = s_cap s
                         ∧ take (s_len s) arr = vs
    end.

(** A resource allocated since [h]: its address is not one of [h], and its
    subresource list was built since [h]. *)
Definition freshResource (h h' : heap) (p : ptr) : Prop :=
  ∃ a R vs, p = Some a ∧ length (hRes h) ≤ a ∧ hRes h' !! a = Some R
            ∧ ownedSlice h h' (rSubResources R) vs.

(** The catalog after the statements [filtered[k] = append(filtered[k], p)]
    for the pointers [ps] in turn. *)
Definition addTo (k : string) (ps : list ptr) (filtered : Resources) : Resources :=
  match ps with
  | [] => filtered
  | _ => <[k := default [] (filtered !! k) ++ ps]> filtered
  end.

(** What [Filter] leaves of an entry that its resource method accepts. *)
Definition filterView (f : Filter) (e : entry) : ResourceView :=
  mkView (rResource e.1) (rApiGroupVersion e.1) (rSchema e.1)
    (List.filter (Filters.subResource f) e.2).

Definition keptViews (f : Filter) (es : list entry) : list ResourceView :=
  filterView f <$> List.filter (fun e => Filters.resource f e.1) es.

(** ** Invariants of the two indexing passes *)

(** A slice header whose backing array exists and has the capacity the
    header claims. *)
Definition wfSlice (h : heap) (s : slice) : Prop :=
  s_len s ≤ s_cap s
  ∧ match s_base s with
    | None => s_cap s = 0
    | Some b => ∃ arr, hArr h !! b = Some arr ∧ length arr = s_cap s
    end.

(** Every parent recorded in [bygvr] is allocated. *)
Definition wfParents (h : heap) (bygvr : gmap GroupVersionResource ptr) : Prop :=
  ∀ gvr q, bygvr !! gvr = Some q →
    ∃ a R, q = Some a ∧ hRes h !! a = Some R ∧ wfSlice h (rSubResources R).

(** [h'] has the resources of [h] at the same addresses, up to their
    subresource lists. *)
Definition sameHeads (h h' : heap) : Prop :=
  ∀ a R, hRes h !! a = Some R →
    ∃ s, hRes h' !! a = Some (withSubResources s R).

(** [R], filed under the name [k], was built by the first pass from a
    descriptor [d] of a matching announcement [gv] of [gvs], with the schema
    that [LookupResource] returned for the announcement's group and version
    and the descriptor's kind. *)
Definition indexedFrom (p : Parser) (gvs : list APIResourceList)
    (k : string) (R : Resource) : Prop :=
  ∃ gv d s,
    gv ∈ gvs ∧ d ∈ APIResources gv
    ∧ let gv' := Parse.splitGroupVersion (GroupVersion gv) in
      Parse.isGroupVersionMatch p gv'.1 gv'.2 = true
      ∧ rResource R = Parse.defaultGroupVersion d gv'.1 gv'.2
      ∧ Parse.resource (rResource R) = (k, true)
      ∧ rApiGroupVersion R = gv'
      ∧ rSchema R = Some s
      ∧ resources p (gv'.1, gv'.2, Kind d) = Some s.

(** Every resource of the catalog is allocated and was indexed from [gvs]. *)
Definition indexedCatalog (p : Parser) (gvs : list APIResourceList)
    (h : heap) (r : Resources) : Prop :=
  ∀ k ps q, r !! k = Some ps → q ∈ ps →
    ∃ a R, q = Some a ∧ hRes h !! a = Some R ∧ indexedFrom p gvs k R.

(** A resource content with the subresources named [.../status] removed. *)
Definition skipStatus (v : ResourceView) : ResourceView :=
  mkView (vResource v) (vApiGroupVersion v) (vSchema v)
    (List.filter
       (fun sr => negb (Strings.HasSuffix (Name (srResource sr)) "/status"))
       (vSubResources v)).

(** ** Concrete catalogs and announcements used below *)

Definition catalog_pods_nodes_services : Resources :=
  {[ "pods" := []; "nodes" := []; "services" := [] ]}.

(** A catalog of one resource with the subresources [status] and [scale],
    as the heap holds it. *)
Definition deployments : APIResource :=
  mkAPIResource "deployments" "" true "" "" "Deployment" [] [] [].

Definition deployments_status : APIResource :=
  mkAPIResource "deployments/status" "" true "" "" "Deployment" [] [] [].

Definition deployments_scale : APIResource :=
  mkAPIResource "deployments/scale" "" true "" "" "Scale" [] [] [].

Definition heap_deployments : heap :=
  mkHeap
    [mkResource deployments ("apps", "v1") (Some (SchemaRef 1))
       (mkSlice (Some 0) 2 2 false)]
    [mkSubResource deployments_status (Some 0) ("apps", "v1") (Some (SchemaRef 1));
     mkSubResource deployments_scale (Some 0) ("apps", "v1") (Some (SchemaRef 2))]
    [[Some 0; Some 1]].

Definition catalog_deployments : Resources := {[ "deployments" := [Some 0] ]}.

(** The announcement of the end-to-end scenario: ["apps/v1"] with the
    descriptors [deployments] and [deployments/status], a schema lookup that
    resolves [(apps, v1, Deployment)], and no group/version restriction. *)
Definition lookup_deployment (gvk : GroupVersionKind) : option Schema :=
  if decide (gvk = ("apps", "v1", "Deployment")) then Some (SchemaRef 1)
  else None.

Definition parser_apps_v1 : Parser :=
  mkParser lookup_deployment
    ([mkAPIResourceList "apps/v1" [deployments; deployments_status]], None)
    "" "".

(** ** Accessors of resource.go, and further specification devices *)

(** Whether the byte [c] occurs in [s]. *)
Fixpoint occurs (c : ascii) (s : string) : bool :=
  match s with
  | EmptyString => false
  | String c' s' => Ascii.eqb c' c || occurs c s'
  end.

(** [Resource.APIGroupVersionKind]: [r.ApiGroupVersion.WithKind(r.Resource.Kind)] *)
Definition Resource_APIGroupVersionKind (r : Resource) : GroupVersionKind :=
  ((rApiGroupVersion r).1, (rApiGroupVersion r).2, Kind (rResource r)).

(** [SubResource.APIGroupVersionKind] *)
Definition SubResource_APIGroupVersionKind (sr : SubResource) : GroupVersionKind :=
  ((srApiGroupVersion sr).1, (srApiGroupVersion sr).2, Kind (srResource sr)).

(** Two filters that judge every resource and every subresource alike. *)
Definition Filter_equiv (f g : Filter) : Prop :=
  (∀ r, Filters.resource f r = Filters.resource g r)
  ∧ (∀ sr, Filters.subResource f sr = Filters.subResource g sr).

(** A filter whose resource method does not look at the subresource list
    of the resource it is handed. *)
Definition headOnly (f : Filter) : Prop :=
  ∀ R s, Filters.resource f (withSubResources s R) = Filters.resource f R.

(** The resource struct with the content [v] and no subresources. *)
Definition viewHead (v : ResourceView) : Resource :=
  mkResource (vResource v) (vApiGroupVersion v) (vSchema v) nilSlice.

(** What a filter keeps of a list of resource contents. *)
Definition filterViews (f : Filter) (vs : list ResourceView) : list ResourceView :=
  (fun v => mkView (vResource v) (vApiGroupVersion v) (vSchema v)
              (List.filter (Filters.subResource f) (vSubResources v)))
  <$> List.filter (fun v => Filters.resource f (viewHead v)) vs.

(** ** The two passes as list functions *)

(** What the first pass makes of the descriptors [rs] of one matching
    announcement: for every descriptor that is a resource and whose schema
    resolves, its name and the [Resource] built for it. *)
Definition indexed_range (p : Parser) (group version : string)
    (rs : list APIResource) : list (string * Resource) :=
  omap (fun d =>
          let r := Parse.defaultGroupVersion d group version in
          let '(name, isRes) := Parse.resource r in
          if negb isRes then None
          else match Parse.getOpenAPI p group version (Kind r) with
               | None => None
               | Some newSchema =>
                   Some (name, mkResource r (group, version) (Some newSchema)
                                 nilSlice)
               end) rs.

(** The same over all announcements, in order. *)
Definition indexed_gvs (p : Parser) (gvs : list APIResourceList)
  : list (string * Resource) :=
  flat_map (fun gv =>
              let '(group, version) := Parse.splitGroupVersion (GroupVersion gv) in
              if negb (Parse.isGroupVersionMatch p group version) then []
              else indexed_range p group version (APIResources gv)) gvs.

(** The subresources that the second pass attaches to the resource at
    address [a], given the lookup table [bygvr] of the first pass. *)
Definition attached_range (p : Parser) (group version : string)
    (bygvr : gmap GroupVersionResource ptr) (a : nat)
    (rs : list APIResource) : list SubResource :=
  omap (fun d =>
          let r := Parse.defaultGroupVersion d group version in
          let '(resourceName, _, isSubResource) := Parse.subResource r in
          if negb isSubResource then None
          else match Parse.getOpenAPI p group version (Kind r) with
               | None => None
               | Some newSchema =>
                   match bygvr !! (group, version, resourceName) with
                   | None => None
                   | Some parent =>
                       if decide (parent = Some a)
                       then Some (mkSubResource r parent (group, version)
                                    (Some newSchema))
                       else None
                   end
               end) rs.

Definition attached_gvs (p : Parser) (bygvr : gmap GroupVersionResource ptr)
    (a : nat) (gvs : list APIResourceList) : list SubResource :=
  flat_map (fun gv =>
              let '(group, version) := Parse.splitGroupVersion (GroupVersion gv) in
              if negb (Parse.isGroupVersionMatch p group version) then []
              else attached_range p group version bygvr a (APIResources gv)) gvs.

(** The state of the first pass after it has indexed the entries [L],
    starting from the heap [h0]: the catalog lists, under every name, the
    resources indexed under that name, in order; the lookup table points to
    indexed resources under their group, version and kind; nothing but
    resources without subresources has been allocated. *)
Definition indexInv (h0 h : heap) (ix : Parse.indexes)
    (L : list (string * Resource)) : Prop :=
  hRes h0 `prefix_of` hRes h ∧ hSub h = hSub h0 ∧ hArr h = hArr h0
  ∧ (∀ a R, length (hRes h0) ≤ a → hRes h !! a = Some R →
            rSubResources R = nilSlice)
  ∧ (∀ k, Forall2 (fun q R => ∃ a, q = Some a ∧ length (hRes h0) ≤ a
                                   ∧ hRes h !! a = Some R)
            (default [] (ix.1 !! k))
            (snd <$> filter (fun x => x.1 = k) L))
  ∧ (∀ k, ix.1 !! k ≠ Some [])
  ∧ (∀ gvr q, ix.2 !! gvr = Some q →
       ∃ a R, q = Some a ∧ length (hRes h0) ≤ a ∧ hRes h !! a = Some R
              ∧ gvr = ((rApiGroupVersion R).1, (rApiGroupVersion R).2,
                       Kind (rResource R))
              ∧ R ∈ snd <$> L).

(** The state of the second pass, starting from the heap [h0] of the call
    and the heap [h1] left by the first pass: the resources of [h1] are in
    place up to their subresource lists, and the resource at each address
    [a] allocated by the call lists the subresources [C a], in a backing
    array of its own. *)
Definition attachInv (h0 h1 h : heap) (C : nat → list SubResource) : Prop :=
  heap_ext h0 h
  ∧ sameHeads h1 h ∧ length (hRes h) = length (hRes h1)
  ∧ (∀ a R, length (hRes h0) ≤ a → hRes h !! a = Some R →
       ∃ vs, ownedSlice h0 h (rSubResources R) vs
             ∧ Forall2 (fun v sr => loadSubResource v h = Some (sr, h)) vs (C a))
  ∧ (∀ a a' R R' b,
       length (hRes h0) ≤ a → length (hRes h0) ≤ a' →
       hRes h !! a = Some R → hRes h !! a' = Some R' →
       s_base (rSubResources R) = Some b → s_base (rSubResources R') = Some b →
       a = a').

(** An announcement in which the kind of the parent is spelled like its
    resource name, so that the lookup of the second pass finds it. *)
Definition widgets : APIResource :=
  mkAPIResource "widgets" "" true "" "" "widgets" [] [] [].

Definition widgets_status : APIResource :=
  mkAPIResource "widgets/status" "" true "" "" "widgets" [] [] [].

Definition widgets_scale : APIResource :=
  mkAPIResource "widgets/scale" "" true "" "" "Scale" [] [] [].

Definition parser_widgets : Parser :=
  mkParser (fun _ => Some (SchemaRef 1))
    ([mkAPIResourceList "example.io/v1"
        [widgets_status; widgets; widgets_scale]], None)
    "" "".

(** ** Properties of the helpers of parse.go *)

Lemma Split_length (s : string) (sep : ascii) :
  1 ≤ length (Strings.Split s sep).
Proof.
  induction s as [|c s IH]; simpl; [lia|].
  destruct (Ascii.eqb c sep); simpl; [lia|].
  destruct (Strings.Split s sep); simpl; lia.
Qed.

(** C2. [splitGroupVersion] on the empty [groupVersion] string yields the
    empty group and the empty version: [strings.Split] returns one (empty)
    part, so the branch that would set ["v1"] is never taken. One part
    gives [("", part)], two parts give [(part0, part1)]. *)
Theorem splitGroupVersion_empty_string :
  Parse.splitGroupVersion "" = ("", "")
  ∧ (∀ s, 1 ≤ length (Strings.Split s "/"))
  ∧ (∀ s part, Strings.Split s "/" = [part] →
       Parse.splitGroupVersion s = ("", part))
  ∧ (∀ s part0 part1, Strings.Split s "/" = [part0; part1] →
       Parse.splitGroupVersion s = (part0, part1)).
Proof.
  split; [reflexivity|].
  split; [intros s; apply Split_length|].
  split.
  - intros s part H. unfold Parse.splitGroupVersion. rewrite H. reflexivity.
  - intros s p0 p1 H. unfold Parse.splitGroupVersion. rewrite H. reflexivity.
Qed.

(** C1. [defaultGroupVersion] never changes the [Version] of a descriptor;
    when the version is empty it overwrites the [Group] with the
    announcement's version instead. For a descriptor with empty group and
    version under ["apps/v1"] the result has group ["v1"] and an empty
    version. *)
Theorem defaultGroupVersion_version_into_group :
  (∀ r group version,
     Version (Parse.defaultGroupVersion r group version) = Version r)
  ∧ (∀ name kind group version,
       let r := mkAPIResource name "" true "" "" kind [] [] [] in
       Group (Parse.defaultGroupVersion r group version) = version)
  ∧ (let r := mkAPIResource "deployments" "" true "" "" "Deployment" [] [] [] in
     Group (Parse.defaultGroupVersion r "apps" "v1") = "v1"
     ∧ Version (Parse.defaultGroupVersion r "apps" "v1") = "")
  ∧ (let r := mkAPIResource "deployments" "" true "extensions" "" "Deployment"
                [] [] [] in
     Group (Parse.defaultGroupVersion r "apps" "v1") = "v1").
Proof.
  split.
  - intros r g v. unfold Parse.defaultGroupVersion.
    destruct (Nat.eqb (String.length (Group r)) 0); simpl;
      destruct (Nat.eqb (String.length (Version r)) 0); reflexivity.
  - split; [|split; [split|]; reflexivity].
    intros name kind g v. unfold Parse.defaultGroupVersion. simpl.
    destruct (Nat.eqb (String.length g) 0); reflexivity.
Qed.

(** ** Properties of the filters *)

Lemma andFilter_resource fs r :
  Filters.resource (andFilter fs) r = forallb (fun f => Filters.resource f r) fs.
Proof.
  simpl. induction fs as [|f fs IH]; [reflexivity|].
  simpl. rewrite IH. destruct (Filters.resource f r); reflexivity.
Qed.

Lemma orFilter_resource fs r :
  Filters.resource (orFilter fs) r = existsb (fun f => Filters.resource f r) fs.
Proof.
  simpl. induction fs as [|f fs IH]; [reflexivity|].
  simpl. rewrite IH. destruct (Filters.resource f r); reflexivity.
Qed.

Lemma andFilter_subResource fs sr :
  Filters.subResource (andFilter fs) sr
  = forallb (fun f => Filters.subResource f sr) fs.
Proof.
  simpl. induction fs as [|f fs IH]; [reflexivity|].
  simpl. rewrite IH. destruct (Filters.subResource f sr); reflexivity.
Qed.

Lemma orFilter_subResource fs sr :
  Filters.subResource (orFilter fs) sr
  = existsb (fun f => Filters.subResource f sr) fs.
Proof.
  simpl. induction fs as [|f fs IH]; [reflexivity|].
  simpl. rewrite IH. destruct (Filters.subResource f sr); reflexivity.
Qed.

(** C5. The AND filter over no children accepts every resource and every
    subresource and the OR filter over no children rejects them; in general
    AND accepts exactly when every child accepts, and OR exactly when some
    child accepts. *)
Theorem and_or_filter_spec (r : Resource) (sr : SubResource) (fs : list Filter) :
  Filters.resource Filters.NewAndFilter r = true
  ∧ Filters.subResource Filters.NewAndFilter sr = true
  ∧ Filters.resource Filters.NewOrFilter r = false
  ∧ Filters.subResource Filters.NewOrFilter sr = false
  ∧ (Filters.resource (andFilter fs) r = true
     ↔ ∀ f, f ∈ fs → Filters.resource f r = true)
  ∧ (Filters.subResource (andFilter fs) sr = true
     ↔ ∀ f, f ∈ fs → Filters.subResource f sr = true)
  ∧ (Filters.resource (orFilter fs) r = true
     ↔ ∃ f, f ∈ fs ∧ Filters.resource f r = true)
  ∧ (Filters.subResource (orFilter fs) sr = true
     ↔ ∃ f, f ∈ fs ∧ Filters.subResource f sr = true).
Proof.
  repeat split; try reflexivity.
  - rewrite andFilter_resource, forallb_forall.
    intros H f Hf. apply H. by apply list_elem_of_In.
  - rewrite andFilter_resource, forallb_forall.
    intros H f Hf. apply H. by apply list_elem_of_In.
  - rewrite andFilter_subResource, forallb_forall.
    intros H f Hf. apply H. by apply list_elem_of_In.
  - rewrite andFilter_subResource, forallb_forall.
    intros H f Hf. apply H. by apply list_elem_of_In.
  - rewrite orFilter_resource, existsb_exists.
    intros (f & Hf & Ha). exists f. split; [by apply list_elem_of_In|done].
  - rewrite orFilter_resource, existsb_exists.
    intros (f & Hf & Ha). exists f. split; [by apply list_elem_of_In|done].
  - rewrite orFilter_subResource, existsb_exists.
    intros (f & Hf & Ha). exists f. split; [by apply list_elem_of_In|done].
  - rewrite orFilter_subResource, existsb_exists.
    intros (f & Hf & Ha). exists f. split; [by apply list_elem_of_In|done].
Qed.

(** ** [SortKeys] *)

Lemma String_compare_refl s : String.compare s s = Eq.
Proof.
  induction s as [|c s IH]; simpl; [done|].
  unfold Ascii.compare. rewrite N.compare_refl. done.
Qed.

Lemma String_compare_Lt_trans s t u :
  String.compare s t = Lt → String.compare t u = Lt → String.compare s u = Lt.
Proof.
  revert t u. induction s as [|a s IH]; intros [|b t] [|c u]; simpl; try done.
  unfold Ascii.compare.
  destruct (N.compare_spec (N_of_ascii a) (N_of_ascii b)) as [Hab|Hab|Hab];
    destruct (N.compare_spec (N_of_ascii b) (N_of_ascii c)) as [Hbc|Hbc|Hbc];
    try done; intros H1 H2.
  - rewrite Hab, Hbc, N.compare_refl. eauto.
  - rewrite Hab. by apply N.compare_lt_iff in Hbc as ->.
  - rewrite <- Hbc. by apply N.compare_lt_iff in Hab as ->.
  - assert (N_of_ascii a < N_of_ascii c)%N as Hac by lia.
    by apply N.compare_lt_iff in Hac as ->.
Qed.

Global Instance String_le_trans : Transitive String_le.
Proof.
  intros s t u. unfold String_le, String.leb.
  destruct (String.compare s t) eqn:H1; try done;
    destruct (String.compare t u) eqn:H2; try done; intros _ _.
  - apply String.compare_eq_iff in H1, H2. subst. by rewrite String_compare_refl.
  - apply String.compare_eq_iff in H1. subst. by rewrite H2.
  - apply String.compare_eq_iff in H2. subst. by rewrite H1.
  - by rewrite (String_compare_Lt_trans _ _ _ H1 H2).
Qed.

Global Instance String_le_total : Total String_le.
Proof. intros s t. apply String.leb_total. Qed.

Global Instance String_le_antisym : AntiSymm (=) String_le.
Proof. intros s t. apply String.leb_antisym. Qed.

Lemma fold_left_keys (order : list (string * list ptr)) (acc : list string) :
  fold_left (fun sorted kv => sorted ++ [kv.1]) order acc = acc ++ order.*1.
Proof.
  revert acc. induction order as [|kv order IH]; intros acc; simpl.
  - by rewrite app_nil_r.
  - rewrite IH. by rewrite <- app_assoc.
Qed.

Lemma SortKeys_keys order :
  Resources.SortKeys order = merge_sort String_le (order.*1).
Proof.
  unfold Resources.SortKeys, Sort.Strings. by rewrite fold_left_keys.
Qed.

Lemma elem_of_keys (r : Resources) k :
  k ∈ (map_to_list r).*1 ↔ is_Some (r !! k).
Proof.
  rewrite list_elem_of_fmap. split.
  - intros ([k' v] & -> & H). apply elem_of_map_to_list in H. eauto.
  - intros [v H]. exists (k, v). split; [done|]. by apply elem_of_map_to_list.
Qed.

(** C7. Whatever order the runtime ranges over the map in, [SortKeys]
    returns the keys of the catalog, each once, in increasing byte-wise
    order; the result does not depend on the iteration order, and the
    function only reads the catalog. Over the keys pods, nodes and services
    it returns nodes, pods, services. *)
Theorem SortKeys_spec (r : Resources) (order : list (string * list ptr)) :
  order ≡ₚ map_to_list r →
  let keys := Resources.SortKeys order in
  Sorted String_le keys
  ∧ NoDup keys
  ∧ (∀ k, k ∈ keys ↔ is_Some (r !! k))
  ∧ keys = Resources.SortKeys (map_to_list r)
  ∧ (dom r = {[ "pods"; "nodes"; "services" ]} →
     keys = ["nodes"; "pods"; "services"]).
Proof.
  intros Hperm keys. subst keys. rewrite !SortKeys_keys.
  assert (merge_sort String_le order.*1 ≡ₚ (map_to_list r).*1) as Hp.
  { rewrite merge_sort_Permutation. by rewrite Hperm. }
  assert (Sorted String_le (merge_sort String_le order.*1)) as Hs
    by apply (Sorted_merge_sort String_le).
  split; [done|].
  split; [rewrite Hp; apply NoDup_fst_map_to_list|].
  split; [intros k; rewrite Hp; apply elem_of_keys|].
  split.
  { apply (Sorted_unique String_le); [done|apply (Sorted_merge_sort String_le)|].
    by rewrite Hp, merge_sort_Permutation. }
  intros Hdom.
  apply (Sorted_unique String_le); [done| |].
  - repeat constructor.
  - rewrite Hp. apply NoDup_Permutation.
    + apply NoDup_fst_map_to_list.
    + compute_done.
    + intros k. rewrite elem_of_keys, <- elem_of_dom, Hdom.
      set_unfold. tauto.
Qed.

Lemma SortKeys_spec_witness :
  map_to_list catalog_pods_nodes_services
    ≡ₚ map_to_list catalog_pods_nodes_services
  ∧ Resources.SortKeys (map_to_list catalog_pods_nodes_services)
    = ["nodes"; "pods"; "services"].
Proof.
  split; [reflexivity|].
  refine (proj2 (proj2 (proj2 (proj2
    (SortKeys_spec catalog_pods_nodes_services
       (map_to_list catalog_pods_nodes_services) _)))) _).
  - reflexivity.
  - vm_compute. reflexivity.
Defined.

(** ** The heap: extension and reads *)

Lemma heap_ext_refl h : heap_ext h h.
Proof. by repeat split. Qed.

Lemma heap_ext_trans h1 h2 h3 : heap_ext h1 h2 → heap_ext h2 h3 → heap_ext h1 h3.
Proof.
  intros (?&?&?) (?&?&?). repeat split; by etrans.
Qed.

Lemma prefix_of_insert_ge {A} (l k : list A) (i : nat) (x : A) :
  l `prefix_of` k → length l ≤ i → l `prefix_of` <[i := x]> k.
Proof.
  intros [t ->] Hi. exists (<[i - length l := x]> t).
  by rewrite insert_app_r_alt.
Qed.

Lemma loadResource_Some p h R h' :
  loadResource p h = Some (R, h') ↔ h' = h ∧ ∃ a, p = Some a ∧ hRes h !! a = Some R.
Proof.
  unfold loadResource. destruct p as [a|]; [|naive_solver].
  destruct (hRes h !! a) eqn:E; naive_solver.
Qed.

Lemma loadSubResource_Some p h sr h' :
  loadSubResource p h = Some (sr, h')
  ↔ h' = h ∧ ∃ a, p = Some a ∧ hSub h !! a = Some sr.
Proof.
  unfold loadSubResource. destruct p as [a|]; [|naive_solver].
  destruct (hSub h !! a) eqn:E; naive_solver.
Qed.

Lemma sliceElems_Some s h vs h' :
  sliceElems s h = Some (vs, h')
  ↔ h' = h ∧ (s_len s = 0 ∧ vs = []
              ∨ s_len s ≠ 0 ∧ ∃ b arr, s_base s = Some b ∧ hArr h !! b = Some arr
                  ∧ s_len s ≤ length arr ∧ vs = take (s_len s) arr).
Proof.
  unfold sliceElems, bind, loadArray, ret, panic.
  destruct (Nat.eqb_spec (s_len s) 0) as [->|Hn]; [naive_solver lia|].
  destruct (s_base s) as [b|]; [|naive_solver].
  destruct (hArr h !! b) as [arr|] eqn:E; [|naive_solver].
  case_decide; naive_solver.
Qed.

Lemma loadResource_ext h h' p R :
  heap_ext h h' → loadResource p h = Some (R, h) → loadResource p h' = Some (R, h').
Proof.
  intros (Hr&_&_). rewrite !loadResource_Some.
  intros (_ & a & -> & Ha). split; [done|]. exists a. split; [done|].
  by eapply prefix_lookup_Some.
Qed.

Lemma loadSubResource_ext h h' p sr :
  heap_ext h h' →
  loadSubResource p h = Some (sr, h) → loadSubResource p h' = Some (sr, h').
Proof.
  intros (_&Hs&_). rewrite !loadSubResource_Some.
  intros (_ & a & -> & Ha). split; [done|]. exists a. split; [done|].
  by eapply prefix_lookup_Some.
Qed.

Lemma sliceElems_ext h h' s vs :
  heap_ext h h' → sliceElems s h = Some (vs, h) → sliceElems s h' = Some (vs, h').
Proof.
  intros (_&_&Ha). rewrite !sliceElems_Some.
  intros (_ & [?|(? & b & arr & ? & Hb & ? & ?)]); split; try done; [by left|].
  right. split; [done|]. exists b, arr. repeat split; try done.
  by eapply prefix_lookup_Some.
Qed.

Lemma loadSubResource_fst h v sr :
  fst <$> loadSubResource v h = Some sr ↔ loadSubResource v h = Some (sr, h).
Proof.
  split.
  - destruct (loadSubResource v h) as [[sr' h']|] eqn:E; simpl; [|done].
    intros [= ->]. apply loadSubResource_Some in E as E'. destruct E' as [-> _]. done.
  - by intros ->.
Qed.

Lemma loadSubResources_Some h s srs :
  loadSubResources h s = Some srs
  ↔ ∃ vs, sliceElems s h = Some (vs, h)
          ∧ Forall2 (fun v sr => loadSubResource v h = Some (sr, h)) vs srs.
Proof.
  unfold loadSubResources. split.
  - destruct (sliceElems s h) as [[vs h']|] eqn:E; [|done].
    apply sliceElems_Some in E as E'. destruct E' as [-> _].
    rewrite mapM_Some. intros HF. exists vs. split; [done|].
    eapply Forall2_impl; [done|]. intros v sr. by rewrite loadSubResource_fst.
  - intros (vs & -> & HF). apply mapM_Some.
    eapply Forall2_impl; [done|]. intros v sr. by rewrite loadSubResource_fst.
Qed.

Lemma loadSubResources_ext h h' s srs :
  heap_ext h h' → loadSubResources h s = Some srs → loadSubResources h' s = Some srs.
Proof.
  intros Hext. rewrite !loadSubResources_Some. intros (vs & Hs & HF).
  exists vs. split; [by eapply sliceElems_ext|].
  eapply Forall2_impl; [done|]. intros v sr. by apply loadSubResource_ext.
Qed.

Lemma loadEntry_Some h p e :
  loadEntry h p = Some e
  ↔ loadResource p h = Some (e.1, h) ∧ loadSubResources h (rSubResources e.1) = Some e.2.
Proof.
  unfold loadEntry. destruct e as [R srs]. simpl. split.
  - destruct (loadResource p h) as [[R' h']|] eqn:E; [|done].
    apply loadResource_Some in E as E'. destruct E' as [-> _].
    destruct (loadSubResources h (rSubResources R')) eqn:E2; [|done].
    by intros [= -> ->].
  - intros [-> ->]. done.
Qed.

Lemma loadEntry_ext h h' p e :
  heap_ext h h' → loadEntry h p = Some e → loadEntry h' p = Some e.
Proof.
  intros Hext. rewrite !loadEntry_Some. intros [H1 H2]. split.
  - by eapply loadResource_ext.
  - by eapply loadSubResources_ext.
Qed.

Lemma loadEntries_ext h h' ps es :
  heap_ext h h' → mapM (loadEntry h) ps = Some es → mapM (loadEntry h') ps = Some es.
Proof.
  intros Hext. rewrite !mapM_Some. intros HF.
  eapply Forall2_impl; [done|]. intros p e. by apply loadEntry_ext.
Qed.

Lemma viewList_entries h ps es :
  mapM (loadEntry h) ps = Some es → viewList h ps = Some (viewOf <$> es).
Proof.
  unfold viewList, viewResource. rewrite !mapM_Some. intros HF.
  apply Forall2_fmap_r. eapply Forall2_impl; [done|].
  intros p e ->. done.
Qed.

Lemma viewList_ext h h' ps :
  heap_ext h h' → is_Some (mapM (loadEntry h) ps) → viewList h' ps = viewList h ps.
Proof.
  intros Hext [es Hes].
  rewrite (viewList_entries _ _ _ Hes).
  apply viewList_entries. by eapply loadEntries_ext.
Qed.

Lemma viewCatalog_ext h h' (r : Resources) :
  heap_ext h h' → validCatalog h r → viewCatalog h' r = viewCatalog h r.
Proof.
  intros Hext Hv. apply map_eq. intros k. unfold viewCatalog.
  rewrite !lookup_fmap. destruct (r !! k) as [ps|] eqn:E; simpl; [|done].
  f_equal. apply viewList_ext; [done|]. by eapply Hv.
Qed.

(** ** [append] on a slice that the current computation owns *)

Lemma append_owned h0 h s vs v :
  heap_ext h0 h → ownedSlice h0 h s vs →
  ∃ s' h', append s v h = Some (s', h')
    ∧ heap_ext h0 h'
    ∧ ownedSlice h0 h' s' (vs ++ [v])
    ∧ hRes h' = hRes h ∧ hSub h' = hSub h.
Proof.
  intros (Hr & Hs & Ha) (Hlen & Hcap & Hbase).
  unfold append. destruct (Nat.ltb_spec (s_len s) (s_cap s)) as [Hlt|Hge].
  - destruct (s_base s) as [b|] eqn:Eb; [|lia].
    destruct Hbase as (Hb & arr & Harr & Hal & Htake).
    unfold bind, storeIndex, ret. rewrite Harr.
    rewrite decide_True by lia.
    eexists _, _. split; [reflexivity|]. simpl.
    split; [|split; [|done]].
    + repeat split; simpl; try done. by apply prefix_of_insert_ge.
    + unfold ownedSlice. simpl. rewrite length_app. simpl.
      split; [lia|]. split; [lia|]. split; [done|].
      exists (<[s_len s := v]> arr). split.
      { apply list_lookup_insert_eq. by eapply lookup_lt_Some. }
      split; [by rewrite length_insert|].
      rewrite (take_S_r _ _ v).
      * rewrite take_insert_ge by lia. by rewrite Htake.
      * apply list_lookup_insert_eq. lia.
  - assert (s_len s = s_cap s) as Heq by lia.
    assert (sliceElems s h = Some (vs, h)) as Hel.
    { apply sliceElems_Some. split; [done|].
      destruct (decide (s_len s = 0)) as [Hz|Hnz].
      - left. split; [done|]. destruct vs; [done|simpl in *; lia].
      - right. split; [done|]. destruct (s_base s) as [b|]; [|lia].
        destruct Hbase as (Hb & arr & Harr & Hal & Htake).
        exists b, arr. repeat split; try done. lia. }
    unfold bind. rewrite Hel. unfold newArray, ret. simpl.
    eexists _, _. split; [reflexivity|]. simpl.
    split; [|split; [|done]].
    + repeat split; simpl; try done. etrans; [done|]. by apply prefix_app_r.
    + unfold ownedSlice, growslice. simpl. rewrite length_app. simpl.
      split; [lia|]. split; [lia|]. split.
      { apply prefix_length in Ha. lia. }
      eexists. split; [by apply list_lookup_middle|].
      split.
      { rewrite length_app. simpl. rewrite length_replicate. lia. }
      rewrite cons_middle, app_assoc.
      rewrite take_app_length'; [done|]. rewrite length_app. simpl. lia.
Qed.

(** ** The loops of [Filter] *)

Lemma ownedSlice_empty h : ownedSlice h h emptySlice [].
Proof. by repeat split. Qed.

Lemma ownedSlice_mono h0 h1 h2 h3 s vs :
  heap_ext h0 h1 → heap_ext h2 h3 → ownedSlice h1 h2 s vs → ownedSlice h0 h3 s vs.
Proof.
  intros (_&_&Ha01) (_&_&Ha23) (Hl & Hc & Hb). split; [done|]. split; [done|].
  destruct (s_base s) as [b|]; [|done].
  destruct Hb as (Hb & arr & Harr & ? & ?). split.
  - apply prefix_length in Ha01. lia.
  - exists arr. split; [|done]. by eapply prefix_lookup_Some.
Qed.

Lemma ownedSlice_elems h0 h s vs :
  ownedSlice h0 h s vs → sliceElems s h = Some (vs, h).
Proof.
  intros (Hl & Hc & Hb). apply sliceElems_Some. split; [done|].
  destruct (decide (s_len s = 0)) as [Hz|Hnz].
  - left. split; [done|]. destruct vs; [done|simpl in *; lia].
  - right. split; [done|]. destruct (s_base s) as [b|]; [|lia].
    destruct Hb as (Hb & arr & Harr & Hal & Htake).
    exists b, arr. repeat split; try done. lia.
Qed.

Lemma filterSubResources_range_spec f h0 vs srs :
  Forall2 (fun v sr => loadSubResource v h0 = Some (sr, h0)) vs srs →
  ∀ h filtered acc accS,
    heap_ext h0 h →
    ownedSlice h0 h filtered acc →
    Forall2 (fun v sr => loadSubResource v h0 = Some (sr, h0)) acc accS →
    ∃ s' h' out,
      Resources.filterSubResources_range f vs filtered h = Some (s', h')
      ∧ heap_ext h0 h'
      ∧ ownedSlice h0 h' s' out
      ∧ Forall2 (fun v sr => loadSubResource v h0 = Some (sr, h0)) out
          (accS ++ List.filter (Filters.subResource f) srs)
      ∧ hRes h' = hRes h ∧ hSub h' = hSub h.
Proof.
  induction 1 as [|v sr vs srs Hv HF IH]; intros h filtered acc accS Hext Hown Hacc.
  - simpl. exists filtered, h, acc. rewrite app_nil_r. by split_and!.
  - simpl. unfold bind at 1.
    rewrite (loadSubResource_ext _ _ _ _ Hext Hv).
    destruct (Filters.subResource f sr) eqn:Hacc'; simpl.
    + destruct (append_owned _ _ _ _ v Hext Hown) as (s1 & h1 & Happ & Hext1 & Hown1 & Hr1 & Hs1).
      unfold bind. rewrite Happ.
      destruct (IH h1 s1 (acc ++ [v]) (accS ++ [sr]) Hext1 Hown1)
        as (s' & h' & out & Hrun & Hext' & Hown' & Hout & Hr' & Hs').
      { apply Forall2_app; [done|]. by constructor. }
      exists s', h', out. rewrite <- app_assoc in Hout.
      split_and!; try done; congruence.
    + by eapply IH.
Qed.

Lemma filterSubResources_spec f h p e :
  loadEntry h p = Some e →
  ∃ s' h' out,
    Resources.filterSubResources e.1 f h = Some (withSubResources s' e.1, h')
    ∧ heap_ext h h'
    ∧ hRes h' = hRes h
    ∧ ownedSlice h h' s' out
    ∧ loadSubResources h' s' = Some (List.filter (Filters.subResource f) e.2).
Proof.
  rewrite loadEntry_Some. intros [_ Hsubs].
  apply loadSubResources_Some in Hsubs as (vs & Hvs & HF).
  unfold Resources.filterSubResources, bind. rewrite Hvs.
  destruct (filterSubResources_range_spec f h vs e.2 HF h emptySlice [] [])
    as (s' & h' & out & Hrun & Hext & Hown & Hout & Hr & Hs).
  { apply heap_ext_refl. } { apply ownedSlice_empty. } { constructor. }
  rewrite Hrun. exists s', h', out. split; [done|].
  split; [done|]. split; [done|]. split; [done|].
  apply loadSubResources_Some. exists out. split.
  - by eapply ownedSlice_elems.
  - eapply Forall2_impl; [exact Hout|]. intros v sr. by apply loadSubResource_ext.
Qed.

Lemma addTo_snoc k p ps (filtered : Resources) :
  addTo k ps (<[k := default [] (filtered !! k) ++ [p]]> filtered)
  = addTo k (p :: ps) filtered.
Proof.
  unfold addTo. destruct ps as [|q ps]; [done|].
  rewrite lookup_insert_eq. simpl. rewrite insert_insert_eq.
  by rewrite <- app_assoc.
Qed.

Lemma freshResource_mono h0 h1 h2 h3 p :
  heap_ext h0 h1 → heap_ext h2 h3 → freshResource h1 h2 p → freshResource h0 h3 p.
Proof.
  intros H01 H23 (a & R & vs & -> & Ha & HR & Hown).
  exists a, R, vs. split; [done|]. split.
  - destruct H01 as (Hr&_&_). apply prefix_length in Hr. lia.
  - split; [|by eapply ownedSlice_mono].
    destruct H23 as (Hr&_&_). by eapply prefix_lookup_Some.
Qed.

Lemma keptViews_cons f e es :
  keptViews f (e :: es)
  = if Filters.resource f e.1 then filterView f e :: keptViews f es
    else keptViews f es.
Proof. unfold keptViews. simpl. by destruct (Filters.resource f e.1). Qed.

Lemma Filter_versions_spec f k v :
  ∀ es h filtered,
    mapM (loadEntry h) v = Some es →
    ∃ ps' es' h',
      Resources.Filter_versions f k v filtered h = Some (addTo k ps' filtered, h')
      ∧ heap_ext h h'
      ∧ mapM (loadEntry h') ps' = Some es'
      ∧ viewOf <$> es' = keptViews f es
      ∧ Forall (freshResource h h') ps'.
Proof.
  induction v as [|version v IH]; intros es h filtered Hes.
  - apply mapM_Some in Hes. inversion Hes; subst.
    exists [], [], h. split_and!; try done; apply heap_ext_refl.
  - apply mapM_Some in Hes. inversion Hes as [|? e ? es0 He Hes0]; subst.
    apply mapM_Some in Hes0. simpl.
    apply loadEntry_Some in He as He'. destruct He' as [Hload _].
    unfold bind at 1. rewrite Hload. rewrite keptViews_cons.
    destruct (Filters.resource f e.1) eqn:Hacc; simpl.
    + destruct (filterSubResources_spec f h version e He)
        as (s' & h1 & out & Hrun & Hext1 & Hres1 & Hown & Hsubs).
      unfold bind at 1. rewrite Hrun. unfold bind at 1, newResource at 1.
      set (h2 := mkHeap (hRes h1 ++ [withSubResources s' e.1]) (hSub h1) (hArr h1)).
      assert (heap_ext h1 h2) as Hext12.
      { split_and!; simpl; try done. by apply prefix_app_r. }
      assert (heap_ext h h2) as Hext2 by (by eapply heap_ext_trans).
      destruct (IH es0 h2
                  (<[k := default [] (filtered !! k) ++ [Some (length (hRes h1))]]>
                     filtered))
        as (ps' & es' & h' & Hrun' & Hext' & Hes' & Hviews & Hfresh).
      { by eapply loadEntries_ext. }
      assert (loadEntry h2 (Some (length (hRes h1)))
              = Some (withSubResources s' e.1,
                      List.filter (Filters.subResource f) e.2)) as Hcopy.
      { apply loadEntry_Some. cbn [fst snd]. split.
        - apply loadResource_Some. split; [done|].
          eexists. split; [done|]. simpl. by apply list_lookup_middle.
        - simpl. by apply (loadSubResources_ext h1). }
      exists (Some (length (hRes h1)) :: ps'),
        ((withSubResources s' e.1, List.filter (Filters.subResource f) e.2) :: es'),
        h'.
      split_and!.
      * rewrite <- addTo_snoc. exact Hrun'.
      * by eapply heap_ext_trans.
      * apply mapM_Some. constructor; [by eapply loadEntry_ext|].
        by apply mapM_Some.
      * rewrite fmap_cons, Hviews. done.
      * constructor.
        -- exists (length (hRes h1)), (withSubResources s' e.1), out.
           split; [done|]. split; [rewrite Hres1; lia|]. split.
           ++ destruct Hext' as (Hr&_&_). eapply prefix_lookup_Some; [|done].
              simpl. by apply list_lookup_middle.
           ++ simpl. eapply ownedSlice_mono; [apply heap_ext_refl| |done].
              by eapply heap_ext_trans.
        -- eapply Forall_impl; [done|]. intros p.
           apply freshResource_mono; [done|apply heap_ext_refl].
    + destruct (IH es0 h filtered) as (ps' & es' & h' & ?); [done|].
      by exists ps', es', h'.
Qed.

Lemma addTo_lookup_ne k k' ps (filtered : Resources) :
  k ≠ k' → addTo k ps filtered !! k' = filtered !! k'.
Proof.
  intros Hne. unfold addTo. destruct ps; [done|]. by rewrite lookup_insert_ne.
Qed.

Lemma addTo_lookup_None k ps (filtered : Resources) :
  filtered !! k = None →
  addTo k ps filtered !! k = match ps with [] => None | _ => Some ps end.
Proof.
  intros Hn. unfold addTo. destruct ps; [done|].
  by rewrite lookup_insert_eq, Hn.
Qed.

Lemma Filter_range_spec f order :
  ∀ h filtered,
    Forall (fun kv => is_Some (mapM (loadEntry h) kv.2)) order →
    NoDup order.*1 →
    (∀ k, k ∈ order.*1 → filtered !! k = None) →
    ∃ r' h',
      Resources.Filter_range f order filtered h = Some (r', h')
      ∧ heap_ext h h'
      ∧ (∀ k, k ∉ order.*1 → r' !! k = filtered !! k)
      ∧ (∀ k v, (k, v) ∈ order →
           ∃ ps' es es',
             mapM (loadEntry h) v = Some es
             ∧ r' !! k = match ps' with [] => None | _ => Some ps' end
             ∧ mapM (loadEntry h') ps' = Some es'
             ∧ viewOf <$> es' = keptViews f es
             ∧ Forall (freshResource h h') ps').
Proof.
  induction order as [|[k0 v0] order IH]; intros h filtered Hvalid Hnd Hnone.
  - exists filtered, h. split_and!; [done|apply heap_ext_refl|done|].
    intros k v Hin. by apply elem_of_nil in Hin.
  - apply Forall_cons in Hvalid as [[es0 Hes0] Hvalid]. simpl in Hes0.
    simpl in Hnd. apply NoDup_cons in Hnd as [Hk0 Hnd].
    destruct (Filter_versions_spec f k0 v0 es0 h filtered Hes0)
      as (ps0 & es0' & h1 & Hrun0 & Hext1 & Hes0' & Hviews0 & Hfresh0).
    destruct (IH h1 (addTo k0 ps0 filtered)) as (r' & h' & Hrun & Hext' & Hout & Hin).
    { eapply Forall_impl; [done|]. intros kv [es Hes].
      exists es. by eapply loadEntries_ext. }
    { done. }
    { intros k Hk. rewrite addTo_lookup_ne.
      - apply Hnone. simpl. by apply elem_of_cons; right.
      - intros ->. done. }
    exists r', h'. simpl. unfold bind. rewrite Hrun0, Hrun.
    split; [done|]. split; [by eapply heap_ext_trans|]. split.
    + intros k Hk. simpl in Hk. apply not_elem_of_cons in Hk as [Hne Hk].
      rewrite Hout by done. by apply addTo_lookup_ne.
    + intros k v Hkv. apply elem_of_cons in Hkv as [[= -> ->]|Hkv].
      * exists ps0, es0, es0'. split; [done|]. split.
        { rewrite Hout by done. apply addTo_lookup_None.
          apply Hnone. simpl. by apply elem_of_cons; left. }
        split; [by eapply loadEntries_ext|]. split; [done|].
        eapply Forall_impl; [done|]. intros p.
        apply freshResource_mono; [apply heap_ext_refl|done].
      * destruct (Hin k v Hkv) as (ps' & es & es' & Hes & Hlk & Hes' & Hv & Hf).
        assert (is_Some (mapM (loadEntry h) v)) as [es1 Hes1].
        { rewrite Forall_forall in Hvalid. by apply (Hvalid (k, v)). }
        assert (es1 = es) as ->.
        { apply (loadEntries_ext _ _ _ _ Hext1) in Hes1. congruence. }
        exists ps', es, es'. split_and!; try done.
        eapply Forall_impl; [done|]. intros p.
        apply freshResource_mono; [done|apply heap_ext_refl].
Qed.

(** What [Filter] does to a catalog, for any filter and any order of the
    map iteration. *)
Lemma Filter_spec f (r : Resources) order h :
  order ≡ₚ map_to_list r →
  validCatalog h r →
  ∃ r' h',
    Resources.Filter order f h = Some (r', h')
    ∧ heap_ext h h'
    ∧ (∀ k, r !! k = None → r' !! k = None)
    ∧ (∀ k v, r !! k = Some v →
         ∃ ps' es es',
           mapM (loadEntry h) v = Some es
           ∧ r' !! k = match ps' with [] => None | _ => Some ps' end
           ∧ mapM (loadEntry h') ps' = Some es'
           ∧ viewOf <$> es' = keptViews f es
           ∧ Forall (freshResource h h') ps').
Proof.
  intros Hperm Hvalid.
  assert (∀ k v, (k, v) ∈ order ↔ r !! k = Some v) as Hin.
  { intros k v. rewrite Hperm. apply elem_of_map_to_list. }
  destruct (Filter_range_spec f order h ∅) as (r' & h' & Hrun & Hext & Hout & Hspec).
  - apply Forall_forall. intros [k v] Hkv. apply Hin in Hkv. by eapply Hvalid.
  - rewrite Hperm. apply NoDup_fst_map_to_list.
  - intros k _. apply lookup_empty.
  - exists r', h'. split; [done|]. split; [done|]. split.
    + intros k Hk. rewrite Hout; [apply lookup_empty|].
      rewrite Hperm, elem_of_keys, Hk. by intros [? ?].
    + intros k v Hkv. apply Hspec. by apply Hin.
Qed.

(** ** [strings.HasSuffix] *)

Lemma substring_0_length s : String.substring 0 (String.length s) s = s.
Proof. induction s as [|c s IH]; simpl; [done|]. by rewrite IH. Qed.

Lemma String_length_app s t :
  String.length (s +:+ t) = String.length s + String.length t.
Proof. induction s as [|c s IH]; simpl; [done|]. by rewrite IH. Qed.

Lemma from_app pre suf : Strings.from (String.length pre) (pre +:+ suf) = suf.
Proof.
  unfold Strings.from. rewrite String_length_app.
  replace (String.length pre + String.length suf - String.length pre)
    with (String.length suf) by lia.
  induction pre as [|c pre IH]; simpl; [apply substring_0_length|done].
Qed.

Lemma substring_split s n :
  n ≤ String.length s →
  s = String.substring 0 n s +:+ String.substring n (String.length s - n) s.
Proof.
  revert s. induction n as [|n IH]; intros s Hn.
  - rewrite Nat.sub_0_r, substring_0_length. by destruct s.
  - destruct s as [|c s]; simpl in *; [lia|].
    change (String c s = String c (String.substring 0 n s
              +:+ String.substring n (String.length s - n) s)).
    f_equal. apply IH. lia.
Qed.

Lemma HasSuffix_spec s suffix :
  Strings.HasSuffix s suffix = true ↔ ∃ pre, s = pre +:+ suffix.
Proof.
  unfold Strings.HasSuffix. rewrite andb_true_iff, Nat.leb_le, String.eqb_eq.
  split.
  - intros [Hle Heq].
    exists (String.substring 0 (String.length s - String.length suffix) s).
    etrans; [apply (substring_split s (String.length s - String.length suffix)); lia|].
    f_equal. exact Heq.
  - intros [pre ->]. rewrite String_length_app. split; [lia|].
    replace (String.length pre + String.length suffix - String.length suffix)
      with (String.length pre) by lia.
    apply from_app.
Qed.

(** ** Theorems about [Filter] *)

Lemma mapM_length_eq {A B} (f : A → option B) l k :
  mapM f l = Some k → length l = length k.
Proof. rewrite mapM_Some. apply Forall2_length. Qed.

(** C10. For every valid catalog, every filter and every iteration order,
    [Filter] returns a catalog in which every key maps to a non-empty list;
    a name all of whose resources are rejected by the filter's resource
    method (in particular a name without resources) is not a key of the
    result. *)
Theorem Filter_keys_nonempty (f : Filter) (r : Resources)
    (order : list (string * list ptr)) (h : heap) :
  order ≡ₚ map_to_list r →
  validCatalog h r →
  ∃ r' h',
    Resources.Filter order f h = Some (r', h')
    ∧ (∀ k ps', r' !! k = Some ps' → ps' ≠ [])
    ∧ (∀ k,
         (∀ ps p R, r !! k = Some ps → p ∈ ps →
                    loadResource p h = Some (R, h) →
                    Filters.resource f R = false) →
         r' !! k = None).
Proof.
  intros Hperm Hvalid.
  destruct (Filter_spec f r order h Hperm Hvalid)
    as (r' & h' & Hrun & Hext & Hnone & Hsome).
  exists r', h'. split; [done|]. split.
  - intros k ps' Hk ->. destruct (r !! k) as [v|] eqn:Hr.
    + destruct (Hsome k v Hr) as (ps & es & es' & _ & Hlk & _).
      rewrite Hk in Hlk. by destruct ps.
    + rewrite (Hnone k Hr) in Hk. done.
  - intros k Hrej. destruct (r !! k) as [v|] eqn:Hr; [|by apply Hnone].
    destruct (Hsome k v Hr) as (ps & es & es' & Hes & Hlk & Hes' & Hv & _).
    assert (keptViews f es = []) as Hkept.
    { unfold keptViews. apply mapM_Some in Hes.
      clear -Hes Hrej. induction Hes as [|p e v es He Hes IH]; [done|].
      simpl. apply loadEntry_Some in He as [Hload _].
      rewrite (Hrej (p :: v) p e.1 eq_refl); [|by left|done].
      apply IH. intros ps q R [= <-] Hq. apply (Hrej (p :: v)); [done|by right]. }
    rewrite Hkept in Hv. apply fmap_nil_inv in Hv. subst es'.
    apply mapM_length_eq in Hes'. destruct ps; [done|simpl in *; lia].
Qed.

Lemma keptViews_accepting f es :
  (∀ R, Filters.resource f R = true) →
  keptViews f es = filterView f <$> es.
Proof.
  intros Hacc. unfold keptViews. f_equal.
  induction es as [|e es IH]; [done|]. simpl. by rewrite Hacc, IH.
Qed.

Lemma filter_true {A} (l : list A) : List.filter (fun _ => true) l = l.
Proof. induction l as [|x l IH]; [done|]. simpl. by rewrite IH. Qed.

Lemma default_lookup_result (r' : Resources) k ps' :
  r' !! k = match ps' with [] => None | _ => Some ps' end →
  default [] (r' !! k) = ps'.
Proof. intros ->. by destruct ps'. Qed.

(** C6. For every valid catalog and every iteration order, [Filter] with
    the skip-status-subresource filter returns, under every name, the
    resources of the source catalog in the same number and order, each with
    its content unchanged except that its subresource list is the source
    list without the subresources whose descriptor name ends in ["/status"],
    the others staying in order. A resource left without subresources is
    kept. *)
Theorem Filter_skip_status (r : Resources) (order : list (string * list ptr))
    (h : heap) :
  order ≡ₚ map_to_list r →
  validCatalog h r →
  ∃ r' h',
    Resources.Filter order Filters.NewSkipSubresourceFilter h = Some (r', h')
    ∧ (∀ k, ∃ vs,
         viewList h (default [] (r !! k)) = Some vs
         ∧ viewList h' (default [] (r' !! k)) = Some (skipStatus <$> vs))
    ∧ (∀ name, Strings.HasSuffix name "/status" = true
               ↔ ∃ pre, name = pre +:+ "/status").
Proof.
  intros Hperm Hvalid.
  destruct (Filter_spec skipSubresourceFilter r order h Hperm Hvalid)
    as (r' & h' & Hrun & Hext & Hnone & Hsome).
  exists r', h'. split; [done|]. split; [|intros name; apply HasSuffix_spec].
  intros k. destruct (r !! k) as [v|] eqn:Hr.
  - destruct (Hsome k v Hr) as (ps' & es & es' & Hes & Hlk & Hes' & Hv & _).
    exists (viewOf <$> es). simpl. split; [by apply viewList_entries|].
    rewrite (default_lookup_result _ _ _ Hlk).
    rewrite (viewList_entries _ _ _ Hes'), Hv.
    rewrite keptViews_accepting by done.
    f_equal. rewrite <- list_fmap_compose. done.
  - exists []. rewrite (Hnone k Hr). done.
Qed.

(** Writes to a resource allocated since [h] leave [h] in place. *)
Lemma appendSubResource_fresh h h' p v :
  heap_ext h h' → freshResource h h' p →
  ∃ h'', appendSubResource p v h' = Some (tt, h'') ∧ heap_ext h h''.
Proof.
  intros Hext (a & R & vs & -> & Ha & HR & Hown).
  unfold appendSubResource, bind. simpl. rewrite HR.
  destruct (append_owned h h' _ vs v Hext Hown)
    as (s1 & h1 & Happ & Hext1 & _ & Hres & _).
  rewrite Happ. unfold storeResource.
  apply lookup_lt_Some in HR as Hlt. rewrite <- Hres in Hlt.
  rewrite decide_True by done.
  eexists. split; [done|]. destruct Hext1 as (Hr & Hs & Harr).
  split_and!; simpl; try done. by apply prefix_of_insert_ge.
Qed.

Lemma setSubResource_fresh h h' p i v R :
  heap_ext h h' → freshResource h h' p →
  loadResource p h' = Some (R, h') → i < s_len (rSubResources R) →
  ∃ h'', setSubResource p i v h' = Some (tt, h'') ∧ heap_ext h h''.
Proof.
  intros Hext (a & R' & vs & -> & Ha & HR & Hown) Hload Hi.
  apply loadResource_Some in Hload as (_ & a' & [= <-] & HR').
  assert (R' = R) as -> by congruence.
  unfold setSubResource, bind. simpl. rewrite HR.
  rewrite decide_True by done.
  destruct Hown as (Hlen & Hcap & Hbase).
  destruct (s_base (rSubResources R)) as [b|]; [|lia].
  destruct Hbase as (Hb & arr & Harr & Hal & _).
  unfold storeIndex. rewrite Harr. rewrite decide_True by lia.
  eexists. split; [done|]. destruct Hext as (Hr & Hs & Hx).
  split_and!; simpl; try done. by apply prefix_of_insert_ge.
Qed.

Lemma validCatalog_pointer h (r : Resources) k ps p :
  validCatalog h r → r !! k = Some ps → p ∈ ps →
  ∃ a, p = Some a ∧ a < length (hRes h).
Proof.
  intros Hvalid Hk Hp. destruct (Hvalid k ps Hk) as [es Hes].
  apply mapM_Some in Hes.
  apply list_elem_of_lookup in Hp as [i Hi].
  destruct (Forall2_lookup_l _ _ _ _ _ Hes Hi) as (e & _ & He).
  apply loadEntry_Some in He as [Hload _].
  apply loadResource_Some in Hload as (_ & a & -> & Ha).
  exists a. split; [done|]. by eapply lookup_lt_Some.
Qed.

Lemma entry_subs_length h p e :
  loadEntry h p = Some e → length e.2 = s_len (rSubResources e.1).
Proof.
  rewrite loadEntry_Some. intros [_ Hsubs].
  apply loadSubResources_Some in Hsubs as (vs & Hvs & HF).
  apply Forall2_length in HF. rewrite <- HF.
  apply sliceElems_Some in Hvs as (_ & [[-> ->]|(_ & b & arr & _ & _ & Hle & ->)]).
  - done.
  - rewrite length_take. lia.
Qed.

(** ** The two passes of [Resources] *)

Lemma heap_ext_empty h : heap_ext emptyHeap h.
Proof. split_and!; apply prefix_nil. Qed.

Lemma wfSlice_owned h s :
  wfSlice h s → ∃ vs, ownedSlice emptyHeap h s vs.
Proof.
  intros [Hle Hb]. destruct (s_base s) as [b|] eqn:Eb.
  - destruct Hb as (arr & Harr & Hlen). exists (take (s_len s) arr).
    split; [rewrite length_take; lia|]. split; [done|]. rewrite Eb.
    split; [simpl; lia|]. by exists arr.
  - exists []. split; [simpl; lia|]. split; [done|]. by rewrite Eb.
Qed.

Lemma ownedSlice_wf h0 h s vs : ownedSlice h0 h s vs → wfSlice h s.
Proof.
  intros (_ & Hle & Hb). split; [done|].
  destruct (s_base s); [|done]. destruct Hb as (_ & arr & ? & ? & _). by exists arr.
Qed.

Lemma append_arrays s v h s' h' :
  append s v h = Some (s', h') →
  ∀ b arr, hArr h !! b = Some arr →
    ∃ arr', hArr h' !! b = Some arr' ∧ length arr' = length arr.
Proof.
  unfold append. destruct (Nat.ltb (s_len s) (s_cap s)).
  - unfold bind, storeIndex, ret. destruct (s_base s) as [b0|]; [|done].
    destruct (hArr h !! b0) as [arr0|] eqn:E0; [|done].
    case_decide; [|done]. intros [= <- <-] b arr Hb. simpl.
    destruct (decide (b = b0)) as [->|Hne].
    + exists (<[s_len s := v]> arr0). split.
      * apply list_lookup_insert_eq. by eapply lookup_lt_Some.
      * rewrite length_insert. congruence.
    + exists arr. by rewrite list_lookup_insert_ne.
  - unfold bind. destruct (sliceElems s h) as [[old h1]|] eqn:E; [|done].
    apply sliceElems_Some in E as [-> _].
    unfold newArray, ret. intros [= <- <-] b arr Hb. simpl.
    exists arr. split; [|done]. by apply lookup_app_l_Some.
Qed.

Lemma append_wf h s v :
  wfSlice h s →
  ∃ s' h', append s v h = Some (s', h')
    ∧ wfSlice h' s'
    ∧ hRes h' = hRes h ∧ hSub h' = hSub h
    ∧ (∀ s0, wfSlice h s0 → wfSlice h' s0).
Proof.
  intros Hwf. destruct (wfSlice_owned h s Hwf) as [vs Hown].
  destruct (append_owned emptyHeap h s vs v (heap_ext_empty h) Hown)
    as (s' & h' & Happ & _ & Hown' & Hr & Hs).
  exists s', h'. split; [done|]. split; [by eapply ownedSlice_wf|].
  split; [done|]. split; [done|].
  intros s0 [Hle Hb]. split; [done|].
  destruct (s_base s0) as [b|]; [|done]. destruct Hb as (arr & Harr & Hlen).
  destruct (append_arrays _ _ _ _ _ Happ b arr Harr) as (arr' & ? & ?).
  exists arr'. split; [done|]. congruence.
Qed.

Lemma withSubResources_id R : withSubResources (rSubResources R) R = R.
Proof. by destruct R. Qed.

Lemma sameHeads_refl h : sameHeads h h.
Proof. intros a R Ha. exists (rSubResources R). by rewrite withSubResources_id. Qed.

Lemma sameHeads_trans h1 h2 h3 : sameHeads h1 h2 → sameHeads h2 h3 → sameHeads h1 h3.
Proof.
  intros H12 H23 a R Ha. destruct (H12 a R Ha) as [s Hs].
  destruct (H23 a _ Hs) as [s' Hs']. by exists s'.
Qed.

Lemma sameHeads_ext h h' : hRes h `prefix_of` hRes h' → sameHeads h h'.
Proof.
  intros Hp a R Ha. exists (rSubResources R). rewrite withSubResources_id.
  by eapply prefix_lookup_Some.
Qed.

Lemma indexedCatalog_sameHeads p gvs h h' (r : Resources) :
  sameHeads h h' → indexedCatalog p gvs h r → indexedCatalog p gvs h' r.
Proof.
  intros Hsame Hix k ps q Hk Hq.
  destruct (Hix k ps q Hk Hq) as (a & R & -> & Ha & Hfrom).
  destruct (Hsame a R Ha) as [s Hs].
  exists a, (withSubResources s R). split; [done|]. split; [done|]. exact Hfrom.
Qed.

Lemma wfSlice_ext h h' s :
  hArr h `prefix_of` hArr h' → wfSlice h s → wfSlice h' s.
Proof.
  intros Hp [Hle Hb]. split; [done|]. destruct (s_base s); [|done].
  destruct Hb as (arr & ? & ?). exists arr. split; [|done].
  by eapply prefix_lookup_Some.
Qed.

Lemma defaultGroupVersion_Kind r group version :
  Kind (Parse.defaultGroupVersion r group version) = Kind r.
Proof.
  unfold Parse.defaultGroupVersion.
  destruct (Nat.eqb (String.length (Group r)) 0); simpl;
    destruct (Nat.eqb _ 0); reflexivity.
Qed.

Lemma indexResources_range_spec p gvs gv group version rs :
  gv ∈ gvs →
  Parse.splitGroupVersion (GroupVersion gv) = (group, version) →
  Parse.isGroupVersionMatch p group version = true →
  (∀ d, d ∈ rs → d ∈ APIResources gv) →
  ∀ h ix,
    indexedCatalog p gvs h ix.1 → wfParents h ix.2 →
    ∃ ix' h',
      Parse.indexResources_range p group version rs ix h = Some (ix', h')
      ∧ indexedCatalog p gvs h' ix'.1 ∧ wfParents h' ix'.2
      ∧ hRes h `prefix_of` hRes h' ∧ hArr h' = hArr h.
Proof.
  intros Hgv Hsplit Hmatch.
  induction rs as [|d rs IH]; intros Hrs h ix Hcat Hpar.
  - exists ix, h. by split_and!.
  - simpl. set (r := Parse.defaultGroupVersion d group version).
    destruct (Parse.resource r) as [name isRes] eqn:Hres.
    assert (∀ d0, d0 ∈ rs → d0 ∈ APIResources gv) as Hrs'.
    { intros d0 Hd0. apply Hrs. by right. }
    destruct isRes; simpl; [|by apply IH].
    destruct (Parse.getOpenAPI p group version (Kind r)) as [newSchema|] eqn:Hlk;
      [|by apply IH].
    destruct ix as [res bygvr]. unfold bind at 1, newResource at 1.
    set (R := mkResource r (group, version) (Some newSchema) nilSlice).
    set (h1 := mkHeap (hRes h ++ [R]) (hSub h) (hArr h)).
    destruct (IH Hrs' h1
                (<[name := default [] (res !! name) ++ [Some (length (hRes h))]]> res,
                 <[(group, version, Kind r) := Some (length (hRes h))]> bygvr))
      as (ix' & h' & Hrun & Hcat' & Hpar' & Hpre & Harr).
    + intros k ps q Hk Hq. simpl in Hk.
      assert (hRes h1 !! length (hRes h) = Some R) as HR
        by (by apply list_lookup_middle).
      assert (indexedFrom p gvs name R) as HfromR.
      { exists gv, d, newSchema. split; [done|]. split; [apply Hrs; by left|].
        rewrite Hsplit. simpl. split_and!; try done.
        unfold Parse.getOpenAPI in Hlk. unfold r in Hlk.
        by rewrite defaultGroupVersion_Kind in Hlk. }
      destruct (decide (k = name)) as [->|Hne].
      * rewrite lookup_insert_eq in Hk. injection Hk as <-.
        apply elem_of_app in Hq as [Hq|Hq].
        -- destruct (res !! name) as [ps0|] eqn:Hr0; [|by apply elem_of_nil in Hq].
           destruct (Hcat name ps0 q Hr0 Hq) as (a & R0 & -> & Ha & Hfrom).
           exists a, R0. split; [done|]. split; [|done].
           simpl. by apply lookup_app_l_Some.
        -- apply list_elem_of_singleton in Hq as ->. by exists (length (hRes h)), R.
      * rewrite lookup_insert_ne in Hk by done.
        destruct (Hcat k ps q Hk Hq) as (a & R0 & -> & Ha & Hfrom).
        exists a, R0. split; [done|]. split; [|done].
        simpl. by apply lookup_app_l_Some.
    + intros gvr q Hq. simpl in Hq.
      destruct (decide (gvr = (group, version, Kind r))) as [->|Hne].
      * rewrite lookup_insert_eq in Hq. injection Hq as <-.
        exists (length (hRes h)), R. split; [done|].
        split; [by apply list_lookup_middle|]. by split.
      * rewrite lookup_insert_ne in Hq by done.
        destruct (Hpar gvr q Hq) as (a & R0 & -> & Ha & Hwf).
        exists a, R0. split; [done|]. split; [|done].
        simpl. by apply lookup_app_l_Some.
    + exists ix', h'. split; [exact Hrun|]. split; [done|]. split; [done|].
      split; [|done]. etrans; [|done]. simpl. by apply prefix_app_r.
Qed.

Lemma indexResources_gvs_spec p gvs gvs0 :
  (∀ gv, gv ∈ gvs0 → gv ∈ gvs) →
  ∀ h ix,
    indexedCatalog p gvs h ix.1 → wfParents h ix.2 →
    ∃ ix' h',
      Parse.indexResources_gvs p gvs0 ix h = Some (ix', h')
      ∧ indexedCatalog p gvs h' ix'.1 ∧ wfParents h' ix'.2
      ∧ hRes h `prefix_of` hRes h' ∧ hArr h' = hArr h.
Proof.
  induction gvs0 as [|gv gvs0 IH]; intros Hsub h ix Hcat Hpar.
  - exists ix, h. by split_and!.
  - cbn [Parse.indexResources_gvs].
    destruct (Parse.splitGroupVersion (GroupVersion gv))
      as [group version] eqn:Hsplit.
    assert (∀ gv0, gv0 ∈ gvs0 → gv0 ∈ gvs) as Hsub'.
    { intros gv0 H0. apply Hsub. by right. }
    destruct (Parse.isGroupVersionMatch p group version) eqn:Hmatch; cbn [negb];
      [|by apply IH].
    destruct (indexResources_range_spec p gvs gv group version (APIResources gv))
      with (h := h) (ix := ix) as (ix1 & h1 & Hrun1 & Hcat1 & Hpar1 & Hpre1 & Harr1);
      try done.
    { apply Hsub. by left. }
    destruct (IH Hsub' h1 ix1 Hcat1 Hpar1) as (ix' & h' & Hrun & Hcat' & Hpar' & Hpre & Harr).
    exists ix', h'. unfold bind. rewrite Hrun1, Hrun.
    split; [done|]. split; [done|]. split; [done|].
    split; [by etrans|congruence].
Qed.

Lemma attachSubResources_range_spec p group version bygvr rs :
  ∀ h, wfParents h bygvr →
    ∃ h', Parse.attachSubResources_range p group version rs bygvr h = Some (tt, h')
      ∧ wfParents h' bygvr ∧ sameHeads h h'.
Proof.
  induction rs as [|d rs IH]; intros h Hpar.
  - exists h. split; [done|]. split; [done|apply sameHeads_refl].
  - simpl. set (r := Parse.defaultGroupVersion d group version).
    destruct (Parse.subResource r) as [[resourceName sub] isSub] eqn:Hsub.
    destruct isSub; simpl; [|by apply IH].
    destruct (Parse.getOpenAPI p group version (Kind r)) as [newSchema|];
      [|by apply IH].
    destruct (bygvr !! (group, version, resourceName)) as [parent|] eqn:Hparent;
      [|by apply IH].
    destruct (Hpar _ _ Hparent) as (a & P & -> & Ha & Hwf).
    unfold bind at 1, newSubResource at 1.
    set (sr := mkSubResource r (Some a) (group, version) (Some newSchema)).
    set (h1 := mkHeap (hRes h) (hSub h ++ [sr]) (hArr h)).
    unfold bind at 1. unfold loadResource at 1.
    change (hRes h1) with (hRes h). rewrite Ha.
    destruct (append_wf h1 (rSubResources P) (Some (length (hSub h))) Hwf)
      as (s' & h2 & Happ & Hwf' & Hres2 & Hsub2 & Hpres).
    unfold bind at 1. rewrite Happ.
    unfold bind at 1, storeResource at 1.
    assert (a < length (hRes h2)) as Hlt.
    { rewrite Hres2. by eapply lookup_lt_Some. }
    rewrite decide_True by done.
    set (h3 := mkHeap (<[a := withSubResources s' P]> (hRes h2)) (hSub h2) (hArr h2)).
    destruct (IH h3) as (h' & Hrun & Hpar' & Hsame).
    + intros gvr q Hq. destruct (Hpar gvr q Hq) as (a0 & R0 & -> & Ha0 & Hwf0).
      destruct (decide (a0 = a)) as [->|Hne].
      * exists a, (withSubResources s' P). split; [done|]. split.
        -- simpl. by apply list_lookup_insert_eq.
        -- exact Hwf'.
      * exists a0, R0. split; [done|]. split.
        -- simpl. rewrite list_lookup_insert_ne by done. by rewrite Hres2.
        -- by apply Hpres.
    + exists h'. split; [exact Hrun|]. split; [done|].
      eapply sameHeads_trans; [|done].
      intros a0 R0 Ha0. simpl.
      destruct (decide (a0 = a)) as [->|Hne].
      * exists s'. rewrite list_lookup_insert_eq by done. congruence.
      * exists (rSubResources R0). rewrite withSubResources_id.
        rewrite list_lookup_insert_ne by done. by rewrite Hres2.
Qed.

Lemma attachSubResources_gvs_spec p bygvr gvs :
  ∀ h, wfParents h bygvr →
    ∃ h', Parse.attachSubResources_gvs p gvs bygvr h = Some (tt, h')
      ∧ wfParents h' bygvr ∧ sameHeads h h'.
Proof.
  induction gvs as [|gv gvs IH]; intros h Hpar.
  - exists h. split; [done|]. split; [done|apply sameHeads_refl].
  - cbn [Parse.attachSubResources_gvs].
    destruct (Parse.splitGroupVersion (GroupVersion gv)) as [group version].
    destruct (Parse.isGroupVersionMatch p group version); cbn [negb]; [|by apply IH].
    destruct (attachSubResources_range_spec p group version bygvr
                (APIResources gv) h Hpar) as (h1 & Hrun1 & Hpar1 & Hsame1).
    destruct (IH h1 Hpar1) as (h' & Hrun & Hpar' & Hsame).
    exists h'. unfold bind. rewrite Hrun1, Hrun.
    split; [done|]. split; [done|]. by eapply sameHeads_trans.
Qed.

(** [Resources] returns, and the catalog it returns was indexed from the
    announcements. *)
Lemma Resources_spec p h :
  match (discovery p).2 with
  | Some e => Parse.Resources p h = Some ((None, Some e), h)
  | None => ∃ r h', Parse.Resources p h = Some ((Some r, None), h')
                    ∧ indexedCatalog p (discovery p).1 h' r
  end.
Proof.
  unfold Parse.Resources. destruct (discovery p) as [gvs [e|]]; simpl; [done|].
  assert (indexedCatalog p gvs h ((∅, ∅) : Parse.indexes).1) as Hcat0.
  { intros k ps q Hk. simpl in Hk. by rewrite lookup_empty in Hk. }
  assert (wfParents h ((∅, ∅) : Parse.indexes).2) as Hpar0.
  { intros gvr q Hq. simpl in Hq. by rewrite lookup_empty in Hq. }
  destruct (indexResources_gvs_spec p gvs gvs (fun _ H => H) h _ Hcat0 Hpar0)
    as ([res bygvr] & h1 & Hrun1 & Hcat1 & Hpar1 & _).
  destruct (attachSubResources_gvs_spec p bygvr gvs h1 Hpar1)
    as (h' & Hrun2 & _ & Hsame).
  exists res, h'. unfold bind, Parse.indexResources, Parse.attachSubResources, bind.
  rewrite Hrun1, Hrun2. split; [done|].
  by eapply indexedCatalog_sameHeads.
Qed.

(** C8. [Resources] always returns. When [ServerResources] fails with [e]
    it returns the nil catalog and [e] itself, and allocates nothing; when
    [ServerResources] succeeds it returns a catalog and the nil error,
    whatever schemas are missing, group-versions filtered or subresources
    orphaned. *)
Theorem Resources_error_iff_discovery_fails (p : Parser) (h : heap) :
  match (discovery p).2 with
  | Some e => Parse.Resources p h = Some ((None, Some e), h)
  | None => ∃ r h', Parse.Resources p h = Some ((Some r, None), h')
  end.
Proof.
  pose proof (Resources_spec p h) as H.
  destruct ((discovery p).2); [done|].
  destruct H as (r & h' & Hrun & _). by exists r, h'.
Qed.

(** C9. When discovery succeeds, every resource of the catalog that
    [Resources] returns carries the schema that [LookupResource] returned
    for its group, version and kind, and that lookup did not fail: the
    resource was built from a descriptor of a matching announcement whose
    schema resolved. *)
Theorem Resources_schema_resolved (p : Parser) (h : heap) :
  (discovery p).2 = None →
  ∃ r h',
    Parse.Resources p h = Some ((Some r, None), h')
    ∧ ∀ k ps q, r !! k = Some ps → q ∈ ps →
        ∃ a R s,
          q = Some a ∧ hRes h' !! a = Some R
          ∧ rSchema R = Some s
          ∧ resources p ((rApiGroupVersion R).1, (rApiGroupVersion R).2,
                         Kind (rResource R)) = Some s
          ∧ indexedFrom p (discovery p).1 k R.
Proof.
  intros Hok. pose proof (Resources_spec p h) as H. rewrite Hok in H.
  destruct H as (r & h' & Hrun & Hcat). exists r, h'. split; [done|].
  intros k ps q Hk Hq. destruct (Hcat k ps q Hk Hq) as (a & R & -> & Ha & Hfrom).
  destruct Hfrom as (gv & d & s & Hgv & Hd & Hm & HR & Hname & Hgvs & Hs & Hlk).
  exists a, R, s. split_and!; try done.
  - rewrite Hgvs, HR, defaultGroupVersion_Kind. exact Hlk.
  - by exists gv, d, s.
Qed.

Lemma Resources_schema_resolved_witness :
  (discovery parser_apps_v1).2 = None
  ∧ ∃ r h',
      Parse.Resources parser_apps_v1 emptyHeap = Some ((Some r, None), h')
      ∧ ∀ k ps q, r !! k = Some ps → q ∈ ps →
          ∃ a R s,
            q = Some a ∧ hRes h' !! a = Some R
            ∧ rSchema R = Some s
            ∧ resources parser_apps_v1
                ((rApiGroupVersion R).1, (rApiGroupVersion R).2,
                 Kind (rResource R)) = Some s
            ∧ indexedFrom parser_apps_v1 (discovery parser_apps_v1).1 k R.
Proof.
  split; [reflexivity|].
  apply (Resources_schema_resolved parser_apps_v1 emptyHeap). reflexivity.
Defined.

(** C3. On the single announcement ["apps/v1"] with the descriptors
    [deployments] and [deployments/status], both of kind [Deployment], and a
    lookup that resolves [(apps, v1, Deployment)], [Resources] returns a
    catalog whose key ["deployments"] maps to one resource with an empty
    subresource list: the first pass files the parent under the key
    [(apps, v1, "Deployment")], the second pass looks it up under
    [(apps, v1, "deployments")], and the subresource is dropped. No
    [SubResource] is allocated. *)
Theorem Resources_apps_v1_no_subresource :
  let R := mkResource (Parse.withGroup "v1" deployments) ("apps", "v1")
             (Some (SchemaRef 1)) nilSlice in
  Parse.Resources parser_apps_v1 emptyHeap
  = Some ((Some catalog_deployments, None), mkHeap [R] [] [])
  ∧ viewCatalog (mkHeap [R] [] []) catalog_deployments
    = {[ "deployments" :=
           Some [mkView (Parse.withGroup "v1" deployments) ("apps", "v1")
                   (Some (SchemaRef 1)) []] ]}.
Proof. split; vm_compute; reflexivity. Qed.

Lemma validCatalog_deployments : validCatalog heap_deployments catalog_deployments.
Proof.
  intros k ps Hk. unfold catalog_deployments in Hk.
  apply lookup_singleton_Some in Hk as [<- <-].
  vm_compute. eauto.
Qed.

Lemma catalog_deployments_nonempty :
  ∀ k ps, catalog_deployments !! k = Some ps → ps ≠ [].
Proof.
  intros k ps Hk. unfold catalog_deployments in Hk.
  by apply lookup_singleton_Some in Hk as [<- <-].
Qed.

Lemma Filter_keys_nonempty_witness :
  map_to_list catalog_deployments ≡ₚ map_to_list catalog_deployments
  ∧ validCatalog heap_deployments catalog_deployments
  ∧ ∃ r' h',
      Resources.Filter (map_to_list catalog_deployments) Filters.NewOrFilter
        heap_deployments = Some (r', h')
      ∧ (∀ k ps', r' !! k = Some ps' → ps' ≠ [])
      ∧ (∀ k,
           (∀ ps p R, catalog_deployments !! k = Some ps → p ∈ ps →
                      loadResource p heap_deployments = Some (R, heap_deployments) →
                      Filters.resource Filters.NewOrFilter R = false) →
           r' !! k = None).
Proof.
  split; [reflexivity|]. split; [exact validCatalog_deployments|].
  apply Filter_keys_nonempty; [reflexivity|exact validCatalog_deployments].
Defined.

Lemma Filter_skip_status_witness :
  map_to_list catalog_deployments ≡ₚ map_to_list catalog_deployments
  ∧ validCatalog heap_deployments catalog_deployments
  ∧ ∃ r' h',
      Resources.Filter (map_to_list catalog_deployments)
        Filters.NewSkipSubresourceFilter heap_deployments = Some (r', h')
      ∧ (∀ k, ∃ vs,
           viewList heap_deployments (default [] (catalog_deployments !! k)) = Some vs
           ∧ viewList h' (default [] (r' !! k)) = Some (skipStatus <$> vs))
      ∧ (∀ name, Strings.HasSuffix name "/status" = true
                 ↔ ∃ pre, name = pre +:+ "/status").
Proof.
  split; [reflexivity|]. split; [exact validCatalog_deployments|].
  apply Filter_skip_status; [reflexivity|exact validCatalog_deployments].
Defined.

(** The skip-status filter on the catalog of [heap_deployments]: the copy
    is a new resource that lists [scale] only, and the source still lists
    both subresources. *)
Example Filter_skip_status_deployments :
  let h' := mkHeap
              (hRes heap_deployments
               ++ [withSubResources (mkSlice (Some 1) 1 1 false)
                     (mkResource deployments ("apps", "v1") (Some (SchemaRef 1))
                        (mkSlice (Some 0) 2 2 false))])
              (hSub heap_deployments)
              (hArr heap_deployments ++ [[Some 1]]) in
  Resources.Filter (map_to_list catalog_deployments)
    Filters.NewSkipSubresourceFilter heap_deployments
  = Some ({[ "deployments" := [Some 1] ]}, h')
  ∧ (fun v => Name (srResource v)) <$> default [] (vSubResources <$> viewResource h' (Some 1))
    = ["deployments/scale"]
  ∧ (fun v => Name (srResource v)) <$> default [] (vSubResources <$> viewResource h' (Some 0))
    = ["deployments/status"; "deployments/scale"].
Proof. split; [|split]; vm_compute; reflexivity. Qed.

(** * Further properties of the package *)

(** ** Names with and without a slash *)

Lemma Split_no_sep s sep : occurs sep s = false → Strings.Split s sep = [s].
Proof.
  induction s as [|c s IH]; simpl; [done|].
  intros H. apply orb_false_iff in H as [Hc Hs].
  rewrite Hc, (IH Hs). done.
Qed.

Lemma Split_app_sep a b sep :
  occurs sep a = false →
  Strings.Split (a +:+ String sep b) sep = a :: Strings.Split b sep.
Proof.
  induction a as [|c a IH]; simpl.
  - intros _. by rewrite Ascii.eqb_refl.
  - intros H. apply orb_false_iff in H as [Hc Ha].
    change (String c a +:+ String sep b) with (String c (a +:+ String sep b)).
    simpl. rewrite Hc, (IH Ha). done.
Qed.

Lemma occurs_split c s :
  occurs c s = true →
  ∃ a b, s = a +:+ String c b ∧ occurs c a = false.
Proof.
  induction s as [|c' s IH]; simpl; [done|].
  destruct (Ascii.eqb c' c) eqn:Hc; simpl.
  - intros _. apply Ascii.eqb_eq in Hc as ->. by exists EmptyString, s.
  - intros Hs. destruct (IH Hs) as (a & b & -> & Ha).
    exists (String c' a), b. split; [done|]. simpl. by rewrite Hc.
Qed.

Lemma append_singleton c s : String c EmptyString +:+ s = String c s.
Proof. reflexivity. Qed.

(** X1. A descriptor is routed by the slash in its name: without a slash
    it is a resource named by its whole name, with a slash it is a
    subresource, whose parent is the text before the first slash and whose
    subresource name is the text between the first and the second slash;
    anything after a second slash is dropped. *)
Theorem subResource_routing (r : APIResource) :
  (occurs "/" (Name r) = false
   ↔ Parse.subResource r = (Name r, "", false))
  ∧ (occurs "/" (Name r) = false ↔ Parse.resource r = (Name r, true))
  ∧ (occurs "/" (Name r) = true ↔ (Parse.subResource r).2 = true)
  ∧ (∀ parent sub rest,
       occurs "/" parent = false → occurs "/" sub = false →
       (Name r = parent +:+ "/" +:+ sub
        ∨ Name r = parent +:+ "/" +:+ sub +:+ "/" +:+ rest) →
       Parse.subResource r = (parent, sub, true)
       ∧ Parse.resource r = (parent, false)).
Proof.
  assert (occurs "/" (Name r) = true → (Parse.subResource r).2 = true) as Hsub.
  { intros H. destruct (occurs_split _ _ H) as (a & b & Hn & Ha).
    unfold Parse.subResource. rewrite Hn, Split_app_sep by done.
    pose proof (Split_length b "/") as Hl.
    destruct (Strings.Split b "/"); [simpl in Hl; lia|done]. }
  assert (occurs "/" (Name r) = false → Parse.subResource r = (Name r, "", false))
    as Hres.
  { intros H. unfold Parse.subResource. by rewrite Split_no_sep. }
  split_and!.
  - split; [done|]. intros Heq. destruct (occurs "/" (Name r)) eqn:E; [|done].
    specialize (Hsub eq_refl). by rewrite Heq in Hsub.
  - split.
    + intros H. unfold Parse.resource. by rewrite (Hres H).
    + intros Heq. destruct (occurs "/" (Name r)) eqn:E; [|done].
      specialize (Hsub eq_refl). unfold Parse.resource in Heq.
      destruct (Parse.subResource r) as [[n s] b]. simpl in *. subst b.
      by inversion Heq.
  - split; [done|]. intros H. destruct (occurs "/" (Name r)) eqn:E; [done|].
    by rewrite (Hres eq_refl) in H.
  - intros parent sub rest Hp Hs Hn.
    assert (Parse.subResource r = (parent, sub, true)) as Heq.
    { unfold Parse.subResource. destruct Hn as [-> | ->].
      - by rewrite append_singleton, Split_app_sep, Split_no_sep.
      - rewrite !append_singleton.
        rewrite Split_app_sep by done. rewrite Split_app_sep by done.
        pose proof (Split_length rest "/") as Hl.
        destruct (Strings.Split rest "/"); [simpl in Hl; lia|done]. }
    split; [done|]. unfold Parse.resource. by rewrite Heq.
Qed.

(** ** Group and version: splitting, matching, copying, defaulting *)

(** X2. Splitting ["group/version"] returns the group and the version it
    was built from, when neither contains a slash; text after a second
    slash is ignored, and a string without a slash is a version with the
    empty group. *)
Theorem splitGroupVersion_roundtrip (group version rest : string) :
  occurs "/" group = false →
  occurs "/" version = false →
  Parse.splitGroupVersion (group +:+ "/" +:+ version) = (group, version)
  ∧ Parse.splitGroupVersion (group +:+ "/" +:+ version +:+ "/" +:+ rest)
    = (group, version)
  ∧ Parse.splitGroupVersion version = ("", version).
Proof.
  intros Hg Hv. unfold Parse.splitGroupVersion. split_and!.
  - by rewrite append_singleton, Split_app_sep, Split_no_sep.
  - rewrite !append_singleton.
    rewrite Split_app_sep by done. rewrite Split_app_sep by done.
    pose proof (Split_length rest "/") as Hl.
    destruct (Strings.Split rest "/"); [simpl in Hl; lia|done].
  - by rewrite Split_no_sep.
Qed.

Lemma splitGroupVersion_roundtrip_witness :
  occurs "/" "apps" = false ∧ occurs "/" "v1beta1" = false
  ∧ Parse.splitGroupVersion "apps/v1beta1" = ("apps", "v1beta1").
Proof.
  split; [reflexivity|]. split; [reflexivity|].
  exact (proj1 (splitGroupVersion_roundtrip "apps" "v1beta1" "" eq_refl eq_refl)).
Defined.

Lemma length_zero_iff s : Nat.eqb (String.length s) 0 = true ↔ s = "".
Proof. destruct s; simpl; split; done. Qed.

Lemma length_pos_iff s : Nat.ltb 0 (String.length s) = true ↔ s ≠ "".
Proof. destruct s; simpl; split; done. Qed.

(** X3. An announcement matches the parser's restriction exactly when the
    configured group is empty or equal to the announcement's group, and the
    configured version is empty or equal to its version. *)
Theorem isGroupVersionMatch_spec (p : Parser) (group version : string) :
  Parse.isGroupVersionMatch p group version = true
  ↔ (apiGroup p = "" ∨ apiGroup p = group)
    ∧ (apiVersion p = "" ∨ apiVersion p = version).
Proof.
  unfold Parse.isGroupVersionMatch.
  destruct (String.eqb_spec (apiGroup p) group) as [Hg|Hg];
    destruct (String.eqb_spec (apiVersion p) version) as [Hv|Hv];
    destruct (apiGroup p) as [|c g]; destruct (apiVersion p) as [|c' v];
    simpl; naive_solver.
Qed.

(** X4. [copyGroupVersion] never leaves the destination group empty: it
    keeps a non-empty group, else takes the source's, else ["core"]. It
    keeps a non-empty version and else takes the source's, changes no other
    field, and copying again from the same source changes nothing. *)
Theorem copyGroupVersion_spec (src dest : APIResource) :
  let out := Parse.copyGroupVersion src dest in
  Group out ≠ ""
  ∧ Group out = (if decide (Group dest = "")
                 then (if decide (Group src = "") then "core" else Group src)
                 else Group dest)
  ∧ Version out = (if decide (Version dest = "") then Version src
                   else Version dest)
  ∧ (Name out, SingularName out, Namespaced out, Kind out, Verbs out,
     ShortNames out, Categories out)
    = (Name dest, SingularName dest, Namespaced dest, Kind dest, Verbs dest,
       ShortNames dest, Categories dest)
  ∧ Parse.copyGroupVersion src out = out.
Proof.
  destruct dest as [n sn ns g v k vb shn cat].
  destruct src as [n' sn' ns' g' v' k' vb' shn' cat'].
  unfold Parse.copyGroupVersion. simpl.
  destruct g as [|c g]; destruct g' as [|c' g']; destruct v as [|d v];
    destruct v' as [|d' v']; simpl; by split_and!.
Qed.

(** X5. [defaultGroupVersion] changes no field but [Group]: name, kind
    and version stay, so the routing of the descriptor and its schema key
    are the same before and after. The group becomes the announcement's
    version when the descriptor's version is empty, else the announcement's
    group when the descriptor's group is empty, else it stays. Defaulting
    twice is defaulting once. *)
Theorem defaultGroupVersion_spec (r : APIResource) (group version : string) :
  let out := Parse.defaultGroupVersion r group version in
  (Name out, SingularName out, Namespaced out, Version out, Kind out, Verbs out,
   ShortNames out, Categories out)
  = (Name r, SingularName r, Namespaced r, Version r, Kind r, Verbs r,
     ShortNames r, Categories r)
  ∧ Parse.subResource out = Parse.subResource r
  ∧ Group out = (if decide (Version r = "") then version
                 else if decide (Group r = "") then group else Group r)
  ∧ Parse.defaultGroupVersion out group version = out.
Proof.
  destruct r as [n sn ns g v k vb shn cat].
  unfold Parse.defaultGroupVersion. simpl.
  destruct g as [|c g]; destruct v as [|d v]; simpl;
    destruct group as [|c' g']; destruct version as [|d' v']; simpl;
    by split_and!.
Qed.

(** ** Composition of filters *)

Lemma forallb_app' {A} (f : A → bool) l k :
  forallb f (l ++ k) = forallb f l && forallb f k.
Proof. induction l as [|x l IH]; simpl; [done|]. by rewrite IH, andb_assoc. Qed.

Lemma existsb_app' {A} (f : A → bool) l k :
  existsb f (l ++ k) = existsb f l || existsb f k.
Proof. induction l as [|x l IH]; simpl; [done|]. by rewrite IH, orb_assoc. Qed.

(** X6. AND and OR over one child are that child; AND (OR) over a
    concatenation is the AND (OR) of the two ANDs (ORs); the accept-all
    filter is neutral in an AND and absorbing in an OR, and the empty OR is
    absorbing in an AND and neutral in an OR. *)
Theorem filter_composition (f : Filter) (fs gs : list Filter) :
  Filter_equiv (andFilter [f]) f
  ∧ Filter_equiv (orFilter [f]) f
  ∧ Filter_equiv (andFilter (fs ++ gs)) (andFilter [andFilter fs; andFilter gs])
  ∧ Filter_equiv (orFilter (fs ++ gs)) (orFilter [orFilter fs; orFilter gs])
  ∧ Filter_equiv (andFilter (emptyFilter :: fs)) (andFilter fs)
  ∧ Filter_equiv (orFilter (emptyFilter :: fs)) emptyFilter
  ∧ Filter_equiv (andFilter (orFilter [] :: fs)) (orFilter [])
  ∧ Filter_equiv (orFilter (orFilter [] :: fs)) (orFilter fs).
Proof.
  assert (∀ x, Filters.resource emptyFilter x = true) as He1 by done.
  assert (∀ x, Filters.subResource emptyFilter x = true) as He2 by done.
  split_and!; split; intros x;
    rewrite ?andFilter_resource, ?orFilter_resource,
      ?andFilter_subResource, ?orFilter_subResource;
    rewrite ?forallb_app', ?existsb_app'; cbn [forallb existsb];
    rewrite ?andFilter_resource, ?orFilter_resource,
      ?andFilter_subResource, ?orFilter_subResource, ?He1, ?He2;
    cbn [forallb existsb andb orb];
    rewrite ?andb_true_r, ?orb_false_r; done.
Qed.

(** ** [Filter] for an arbitrary filter *)

Lemma bind_Some {A B} (m : M A) (f : A → M B) h b h'' :
  bind m f h = Some (b, h'')
  ↔ ∃ a h', m h = Some (a, h') ∧ f a h' = Some (b, h'').
Proof.
  unfold bind. destruct (m h) as [[a h']|]; [|naive_solver].
  split; [by exists a, h'|]. by intros (? & ? & [= -> ->] & ?).
Qed.

Lemma append_same_objects s v h s' h' :
  append s v h = Some (s', h') → hRes h' = hRes h ∧ hSub h' = hSub h.
Proof.
  unfold append. destruct (Nat.ltb (s_len s) (s_cap s)).
  - unfold bind, storeIndex, ret. destruct (s_base s) as [b|]; [|done].
    destruct (hArr h !! b); [|done]. case_decide; [|done]. by intros [= <- <-].
  - unfold bind. destruct (sliceElems s h) as [[old h1]|] eqn:E; [|done].
    apply sliceElems_Some in E as [-> _]. unfold newArray, ret.
    by intros [= <- <-].
Qed.

Lemma filterSubResources_range_same_objects f vs :
  ∀ filtered h s' h',
    Resources.filterSubResources_range f vs filtered h = Some (s', h') →
    hRes h' = hRes h ∧ hSub h' = hSub h.
Proof.
  induction vs as [|v vs IH]; intros filtered h s' h'; simpl.
  - by intros [= <- <-].
  - intros Hrun. apply bind_Some in Hrun as (sr & h1 & Hload & Hrun).
    apply loadSubResource_Some in Hload as [-> _].
    destruct (Filters.subResource f sr); simpl in Hrun; [|by eapply IH].
    apply bind_Some in Hrun as (s1 & h2 & Happ & Hrun).
    apply append_same_objects in Happ as [Hr Hs].
    apply IH in Hrun as [Hr' Hs']. split; congruence.
Qed.

Lemma Filter_versions_same_subs f k v :
  ∀ filtered h r' h',
    Resources.Filter_versions f k v filtered h = Some (r', h') →
    hSub h' = hSub h.
Proof.
  induction v as [|version v IH]; intros filtered h r' h'; simpl.
  - by intros [= <- <-].
  - intros Hrun. apply bind_Some in Hrun as (R & h1 & Hload & Hrun).
    apply loadResource_Some in Hload as [-> _].
    destruct (Filters.resource f R); simpl in Hrun; [|by eapply IH].
    apply bind_Some in Hrun as (copy & h2 & Hcopy & Hrun).
    apply bind_Some in Hrun as (pc & h3 & Hnew & Hrun).
    unfold Resources.filterSubResources in Hcopy.
    apply bind_Some in Hcopy as (vs & h4 & Hvs & Hcopy).
    apply sliceElems_Some in Hvs as [-> _].
    apply bind_Some in Hcopy as (s' & h5 & Hrange & Hret).
    injection Hret as <- <-.
    apply filterSubResources_range_same_objects in Hrange as [_ Hs].
    unfold newResource in Hnew. injection Hnew as <- <-.
    apply IH in Hrun. simpl in Hrun. congruence.
Qed.

Lemma Filter_range_same_subs f order :
  ∀ filtered h r' h',
    Resources.Filter_range f order filtered h = Some (r', h') →
    hSub h' = hSub h.
Proof.
  induction order as [|[k v] order IH]; intros filtered h r' h'; simpl.
  - by intros [= <- <-].
  - intros Hrun. apply bind_Some in Hrun as (f1 & h1 & Hv & Hrun).
    apply Filter_versions_same_subs in Hv. apply IH in Hrun. congruence.
Qed.

(** Everything [Filter] does, for any filter and any order of the map
    iteration. *)
Lemma Filter_full (f : Filter) (r : Resources)
    (order : list (string * list ptr)) (h : heap) :
  order ≡ₚ map_to_list r →
  validCatalog h r →
  ∃ r' h',
    Resources.Filter order f h = Some (r', h')
    ∧ heap_ext h h'
    ∧ hSub h' = hSub h
    ∧ validCatalog h' r'
    ∧ dom r' ⊆ dom r
    ∧ ∀ k, ∃ es,
        mapM (loadEntry h) (default [] (r !! k)) = Some es
        ∧ viewList h' (default [] (r' !! k)) = Some (keptViews f es).
Proof.
  intros Hperm Hvalid.
  destruct (Filter_spec f r order h Hperm Hvalid)
    as (r' & h' & Hrun & Hext & Hnone & Hsome).
  exists r', h'. split; [done|]. split; [done|]. split_and!.
  - unfold Resources.Filter in Hrun. by eapply Filter_range_same_subs.
  - intros k ps' Hk. destruct (r !! k) as [v|] eqn:Hr.
    + destruct (Hsome k v Hr) as (qs & es & es' & _ & Hlk & Hes' & _).
      rewrite Hk in Hlk. destruct qs; [done|]. injection Hlk as ->. by exists es'.
    + by rewrite (Hnone k Hr) in Hk.
  - intros k. rewrite !elem_of_dom. intros [ps' Hk].
    destruct (r !! k) eqn:Hr; [done|]. by rewrite (Hnone k Hr) in Hk.
  - intros k. destruct (r !! k) as [v|] eqn:Hr.
    + destruct (Hsome k v Hr) as (ps' & es & es' & Hes & Hlk & Hes' & Hv & _).
      exists es. split; [done|].
      rewrite (default_lookup_result _ _ _ Hlk).
      by rewrite (viewList_entries _ _ _ Hes'), Hv.
    + exists []. rewrite (Hnone k Hr). done.
Qed.

(** X7. For every filter, valid catalog and iteration order, [Filter]
    returns, and under every name the result holds exactly the resources
    that the filter's resource method accepts, in their order, each with
    the subresources that the subresource method accepts, in their order,
    and with its other fields unchanged. *)
Theorem Filter_content (f : Filter) (r : Resources)
    (order : list (string * list ptr)) (h : heap) :
  order ≡ₚ map_to_list r →
  validCatalog h r →
  ∃ r' h',
    Resources.Filter order f h = Some (r', h')
    ∧ ∀ k, ∃ es,
        mapM (loadEntry h) (default [] (r !! k)) = Some es
        ∧ viewList h' (default [] (r' !! k)) = Some (keptViews f es).
Proof.
  intros Hperm Hvalid.
  destruct (Filter_full f r order h Hperm Hvalid)
    as (r' & h' & Hrun & _ & _ & _ & _ & Hc).
  by exists r', h'.
Qed.

(** X8. [Filter] only allocates: every object of the heap stays as it
    was, so the source catalog reads as before; no [SubResource] is
    allocated (the copies share the subresources of the source); the
    result is again a valid catalog, and its names are names of the
    source. *)
Theorem Filter_leaves_source (f : Filter) (r : Resources)
    (order : list (string * list ptr)) (h : heap) :
  order ≡ₚ map_to_list r →
  validCatalog h r →
  ∃ r' h',
    Resources.Filter order f h = Some (r', h')
    ∧ heap_ext h h'
    ∧ hSub h' = hSub h
    ∧ viewCatalog h' r = viewCatalog h r
    ∧ validCatalog h' r'
    ∧ dom r' ⊆ dom r.
Proof.
  intros Hperm Hvalid.
  destruct (Filter_full f r order h Hperm Hvalid)
    as (r' & h' & Hrun & Hext & Hsub & Hv & Hdom & _).
  exists r', h'. split_and!; try done. by apply viewCatalog_ext.
Qed.

Lemma filterViews_cons f v vs :
  filterViews f (v :: vs)
  = if Filters.resource f (viewHead v)
    then mkView (vResource v) (vApiGroupVersion v) (vSchema v)
           (List.filter (Filters.subResource f) (vSubResources v))
         :: filterViews f vs
    else filterViews f vs.
Proof.
  unfold filterViews. simpl. by destruct (Filters.resource f (viewHead v)).
Qed.

Lemma keptViews_filterViews f es :
  headOnly f → keptViews f es = filterViews f (viewOf <$> es).
Proof.
  intros Hhead. induction es as [|[R srs] es IH]; [done|].
  rewrite fmap_cons, keptViews_cons, filterViews_cons, IH.
  assert (Filters.resource f (viewHead (viewOf (R, srs))) = Filters.resource f R)
    as ->.
  { rewrite <- (Hhead (viewHead (viewOf (R, srs))) (rSubResources R)).
    by destruct R. }
  done.
Qed.

Lemma headOnly_and f g : headOnly f → headOnly g → headOnly (andFilter [f; g]).
Proof.
  intros Hf Hg R s. rewrite !andFilter_resource. cbn [forallb].
  by rewrite Hf, Hg.
Qed.

Lemma filter_filter {A} (p q : A → bool) l :
  List.filter q (List.filter p l) = List.filter (fun x => p x && q x) l.
Proof.
  induction l as [|x l IH]; [done|]. simpl.
  destruct (p x); simpl; [destruct (q x)|]; by rewrite IH.
Qed.

Lemma filterViews_and f g vs :
  filterViews g (filterViews f vs) = filterViews (andFilter [f; g]) vs.
Proof.
  induction vs as [|v vs IH]; [done|].
  rewrite !filterViews_cons, andFilter_resource. cbn [forallb].
  destruct (Filters.resource f (viewHead v)) eqn:Hf; cbn [andb].
  - rewrite filterViews_cons. unfold viewHead at 1. cbn [vResource vApiGroupVersion vSchema].
    fold (viewHead v). rewrite andb_true_r.
    destruct (Filters.resource g (viewHead v)) eqn:Hg; [|done].
    rewrite IH. f_equal. cbn [vResource vApiGroupVersion vSchema vSubResources].
    f_equal. rewrite filter_filter. apply filter_ext. intros sr.
    rewrite andFilter_subResource. cbn [forallb]. by rewrite andb_true_r.
  - done.
Qed.

(** X9. For filters whose resource method does not look at the
    subresource list, filtering with [f] and then filtering the result
    with [g] gives the same content as filtering once with the AND of [f]
    and [g]. *)
Theorem Filter_twice_is_and (f g : Filter) (r : Resources)
    (order : list (string * list ptr)) (h : heap) :
  order ≡ₚ map_to_list r →
  validCatalog h r →
  headOnly f → headOnly g →
  ∃ r1 h1 r3 h3,
    Resources.Filter order f h = Some (r1, h1)
    ∧ Resources.Filter order (andFilter [f; g]) h = Some (r3, h3)
    ∧ ∀ order1, order1 ≡ₚ map_to_list r1 →
        ∃ r2 h2,
          Resources.Filter order1 g h1 = Some (r2, h2)
          ∧ ∀ k, viewList h2 (default [] (r2 !! k))
                 = viewList h3 (default [] (r3 !! k)).
Proof.
  intros Hperm Hvalid Hf Hg.
  destruct (Filter_full f r order h Hperm Hvalid)
    as (r1 & h1 & Hrun1 & _ & _ & Hvalid1 & _ & Hc1).
  destruct (Filter_full (andFilter [f; g]) r order h Hperm Hvalid)
    as (r3 & h3 & Hrun3 & _ & _ & _ & _ & Hc3).
  exists r1, h1, r3, h3. split; [done|]. split; [done|].
  intros order1 Hperm1.
  destruct (Filter_full g r1 order1 h1 Hperm1 Hvalid1)
    as (r2 & h2 & Hrun2 & _ & _ & _ & _ & Hc2).
  exists r2, h2. split; [done|]. intros k.
  destruct (Hc1 k) as (es & Hes & Hv1).
  destruct (Hc2 k) as (es1 & Hes1 & Hv2).
  destruct (Hc3 k) as (es3 & Hes3 & Hv3).
  assert (es3 = es) as -> by congruence.
  rewrite (viewList_entries _ _ _ Hes1) in Hv1. injection Hv1 as Hv1.
  rewrite Hv2, Hv3. f_equal.
  rewrite (keptViews_filterViews g) by done. rewrite Hv1.
  rewrite (keptViews_filterViews f) by done.
  rewrite filterViews_and.
  symmetry. apply keptViews_filterViews. by apply headOnly_and.
Qed.

(** ** The first pass as a list function *)

Lemma indexInv_start h : indexInv h h ((∅, ∅) : Parse.indexes) [].
Proof.
  split_and!; try done.
  intros a R Ha HR. apply lookup_lt_Some in HR. lia.
Qed.

Lemma filter_snoc_name (L : list (string * Resource)) x k :
  filter (fun y => y.1 = k) (L ++ [x])
  = filter (fun y => y.1 = k) L ++ (if decide (x.1 = k) then [x] else []).
Proof.
  rewrite filter_app. by f_equal.
Qed.

Lemma indexInv_step h0 h res bygvr L name R :
  indexInv h0 h (res, bygvr) L →
  rSubResources R = nilSlice →
  indexInv h0 (mkHeap (hRes h ++ [R]) (hSub h) (hArr h))
    (<[name := default [] (res !! name) ++ [Some (length (hRes h))]]> res,
     <[((rApiGroupVersion R).1, (rApiGroupVersion R).2, Kind (rResource R))
        := Some (length (hRes h))]> bygvr)
    (L ++ [(name, R)]).
Proof.
  intros (Hpre & Hsub & Harr & Hnil & Hcat & Hne & Hby) HR.
  pose proof (prefix_length _ _ Hpre) as Hlen.
  split_and!; simpl; try done.
  - etrans; [done|]. by apply prefix_app_r.
  - intros a R' Ha Hlk. apply lookup_app_Some in Hlk as [Hlk|[_ Hlk]].
    + by eapply Hnil.
    + apply list_lookup_singleton_Some in Hlk as [_ <-]. done.
  - intros k. rewrite filter_snoc_name, fmap_app. simpl.
    destruct (decide (name = k)) as [->|Hnk].
    + rewrite lookup_insert_eq. simpl. apply Forall2_app.
      * eapply Forall2_impl; [apply (Hcat k)|].
        intros q R' (a & -> & Ha & Hlk). exists a. split; [done|]. split; [done|].
        by apply lookup_app_l_Some.
      * constructor; [|constructor]. exists (length (hRes h)).
        split; [done|]. split; [lia|]. by apply list_lookup_middle.
    + rewrite lookup_insert_ne by done. simpl. rewrite app_nil_r.
      eapply Forall2_impl; [apply (Hcat k)|].
      intros q R' (a & -> & Ha & Hlk). exists a. split; [done|]. split; [done|].
      by apply lookup_app_l_Some.
  - intros k. destruct (decide (name = k)) as [->|Hnk].
    + rewrite lookup_insert_eq. intros [= Heq]. by destruct (default [] (res !! k)).
    + rewrite lookup_insert_ne by done. apply Hne.
  - intros gvr q Hq. rewrite fmap_app. simpl.
    destruct (decide (((rApiGroupVersion R).1, (rApiGroupVersion R).2,
                       Kind (rResource R)) = gvr)) as [<-|Hng].
    + rewrite lookup_insert_eq in Hq. injection Hq as <-.
      exists (length (hRes h)), R. split; [done|]. split; [lia|].
      split; [by apply list_lookup_middle|]. split; [done|].
      apply elem_of_app. right. by apply list_elem_of_singleton.
    + rewrite lookup_insert_ne in Hq by done.
      destruct (Hby gvr q Hq) as (a & R' & -> & Ha & Hlk & Hg & Hin).
      exists a, R'. split; [done|]. split; [done|].
      split; [by apply lookup_app_l_Some|]. split; [done|].
      apply elem_of_app. by left.
Qed.

Lemma indexResources_range_indexed p group version rs :
  ∀ h0 h ix L ix' h',
    Parse.indexResources_range p group version rs ix h = Some (ix', h') →
    indexInv h0 h ix L →
    indexInv h0 h' ix' (L ++ indexed_range p group version rs).
Proof.
  induction rs as [|d rs IH]; intros h0 h ix L ix' h'.
  - simpl. intros [= <- <-]. by rewrite app_nil_r.
  - simpl. unfold indexed_range. simpl.
    fold (indexed_range p group version rs).
    set (r := Parse.defaultGroupVersion d group version).
    destruct (Parse.resource r) as [name isRes] eqn:Hres.
    destruct isRes; simpl; [|by apply IH].
    destruct (Parse.getOpenAPI p group version (Kind r)) as [newSchema|] eqn:Hlk;
      [|by apply IH].
    destruct ix as [res bygvr]. intros Hrun Hinv.
    apply bind_Some in Hrun as (q & h1 & Hnew & Hrun).
    unfold newResource in Hnew. injection Hnew as <- <-.
    rewrite cons_middle, app_assoc.
    eapply IH; [exact Hrun|].
    by apply (indexInv_step h0 h res bygvr L name
                (mkResource r (group, version) (Some newSchema) nilSlice)).
Qed.

Lemma indexResources_gvs_indexed p gvs :
  ∀ h0 h ix L ix' h',
    Parse.indexResources_gvs p gvs ix h = Some (ix', h') →
    indexInv h0 h ix L →
    indexInv h0 h' ix' (L ++ indexed_gvs p gvs).
Proof.
  induction gvs as [|gv gvs IH]; intros h0 h ix L ix' h'.
  - simpl. intros [= <- <-]. by rewrite app_nil_r.
  - cbn [Parse.indexResources_gvs indexed_gvs flat_map].
    fold (indexed_gvs p gvs).
    destruct (Parse.splitGroupVersion (GroupVersion gv)) as [group version].
    destruct (Parse.isGroupVersionMatch p group version); cbn [negb].
    + intros Hrun Hinv. apply bind_Some in Hrun as (ix1 & h1 & Hrange & Hrun).
      rewrite app_assoc. eapply IH; [exact Hrun|].
      by eapply indexResources_range_indexed.
    + simpl. by apply IH.
Qed.

(** ** The second pass as a list function *)

Lemma append_base s v h s' h' :
  append s v h = Some (s', h') →
  s_base s' = s_base s ∨ s_base s' = Some (length (hArr h)).
Proof.
  unfold append. destruct (Nat.ltb (s_len s) (s_cap s)).
  - intros H. apply bind_Some in H as (? & ? & _ & H). injection H as <- <-.
    by left.
  - intros H. apply bind_Some in H as (old & h1 & Hel & H).
    apply sliceElems_Some in Hel as [-> _].
    apply bind_Some in H as (a & h2 & Hnew & H).
    unfold newArray in Hnew. injection Hnew as <- <-. injection H as <- <-.
    by right.
Qed.

Lemma append_arrays_other s v h s' h' b arr :
  append s v h = Some (s', h') →
  hArr h !! b = Some arr → s_base s ≠ Some b →
  hArr h' !! b = Some arr.
Proof.
  unfold append. destruct (Nat.ltb (s_len s) (s_cap s)).
  - unfold bind, storeIndex, ret. destruct (s_base s) as [b0|]; [|done].
    destruct (hArr h !! b0) as [arr0|] eqn:E0; [|done].
    case_decide; [|done]. intros [= <- <-] Hb Hne. simpl.
    rewrite list_lookup_insert_ne; [done|]. congruence.
  - intros H Hb _. apply bind_Some in H as (old & h1 & Hel & H).
    apply sliceElems_Some in Hel as [-> _].
    apply bind_Some in H as (a & h2 & Hnew & H).
    unfold newArray in Hnew. injection Hnew as <- <-. injection H as <- <-.
    simpl. by apply lookup_app_l_Some.
Qed.

Lemma attachInv_ext h0 h1 h C C' :
  (∀ a, C a = C' a) → attachInv h0 h1 h C → attachInv h0 h1 h C'.
Proof.
  intros Heq (H1 & H2 & H3 & H4 & H5). split_and!; try done.
  intros a R Ha HR. rewrite <- Heq. by apply H4.
Qed.

Lemma withSubResources_twice s s' R :
  withSubResources s' (withSubResources s R) = withSubResources s' R.
Proof. done. Qed.

Lemma attachInv_step h0 h1 h C a P sr :
  attachInv h0 h1 h C →
  length (hRes h0) ≤ a → hRes h !! a = Some P →
  ∃ s' h',
    append (rSubResources P) (Some (length (hSub h)))
      (mkHeap (hRes h) (hSub h ++ [sr]) (hArr h)) = Some (s', h')
    ∧ a < length (hRes h')
    ∧ attachInv h0 h1
        (mkHeap (<[a := withSubResources s' P]> (hRes h')) (hSub h') (hArr h'))
        (fun x => if decide (x = a) then C x ++ [sr] else C x).
Proof.
  intros (Hext & Hsame & Hlen & Hown & Hdisj) Ha HP.
  set (hS := mkHeap (hRes h) (hSub h ++ [sr]) (hArr h)).
  assert (heap_ext h0 hS) as HextS.
  { destruct Hext as (Hr & Hs & Hx). split_and!; simpl; try done.
    etrans; [done|]. by apply prefix_app_r. }
  destruct (Hown a P Ha HP) as (vs & HownP & Hloads).
  assert (ownedSlice h0 hS (rSubResources P) vs) as HownS by exact HownP.
  destruct (append_owned h0 hS _ vs (Some (length (hSub h))) HextS HownS)
    as (s' & h' & Happ & Hext' & Hown' & Hres' & Hsub').
  simpl in Hres', Hsub'.
  exists s', h'. split; [exact Happ|].
  assert (a < length (hRes h')) as Hlt.
  { rewrite Hres'. by eapply lookup_lt_Some. }
  split; [done|].
  destruct Hext' as (Hr' & Hs' & Hx').
  split_and!; simpl.
  - split_and!; simpl; try done. by apply prefix_of_insert_ge.
  - intros a0 R0 H0. destruct (Hsame a0 R0 H0) as [s Hs].
    destruct (decide (a0 = a)) as [->|Hne].
    + exists s'. simpl. rewrite list_lookup_insert_eq by done.
      assert (P = withSubResources s R0) as -> by congruence. done.
    + exists s. simpl. rewrite list_lookup_insert_ne by done. by rewrite Hres'.
  - rewrite length_insert. congruence.
  - intros a0 R0 Ha0 HR0. destruct (decide (a0 = a)) as [->|Hne].
    + rewrite list_lookup_insert_eq in HR0 by done. injection HR0 as <-.
      exists (vs ++ [Some (length (hSub h))]).
      split; [exact Hown'|]. apply Forall2_app.
      * eapply Forall2_impl; [exact Hloads|]. intros v x Hv.
        apply loadSubResource_Some in Hv as (_ & b & -> & Hb).
        apply loadSubResource_Some. split; [done|]. exists b. split; [done|].
        simpl. rewrite Hsub'. by apply lookup_app_l_Some.
      * constructor; [|constructor]. apply loadSubResource_Some.
        split; [done|]. eexists. split; [done|]. simpl. rewrite Hsub'.
        by apply list_lookup_middle.
    + rewrite list_lookup_insert_ne in HR0 by done. rewrite Hres' in HR0.
      destruct (Hown a0 R0 Ha0 HR0) as (vs0 & (Hl0 & Hc0 & Hb0) & Hloads0).
      exists vs0. split.
      * split; [done|]. split; [done|].
        destruct (s_base (rSubResources R0)) as [b0|] eqn:Eb0; [|done].
        destruct Hb0 as (Hge & arr & Harr & Hal & Htk). split; [done|].
        exists arr. split; [|done]. simpl.
        apply (append_arrays_other _ _ _ _ _ _ _ Happ Harr).
        intros Heq. apply Hne. by eapply (Hdisj a0 a R0 P b0).
      * eapply Forall2_impl; [exact Hloads0|]. intros v x Hv.
        apply loadSubResource_Some in Hv as (_ & b & -> & Hb).
        apply loadSubResource_Some. split; [done|]. exists b. split; [done|].
        simpl. rewrite Hsub'. by apply lookup_app_l_Some.
  - intros a1 a2 R1 R2 b Ha1 Ha2 H1 H2 Hb1 Hb2.
    assert (∀ a0 R0, a0 ≠ a → length (hRes h0) ≤ a0 → hRes h !! a0 = Some R0 →
            s_base (rSubResources R0) = Some b → s_base s' = Some b → False)
      as Hfresh.
    { intros a0 R0 Hne Ha0 HR0 Hb0 Hbs.
      destruct (append_base _ _ _ _ _ Happ) as [Hsame'|Hnew].
      - apply Hne. eapply (Hdisj a0 a R0 P b); try done. congruence.
      - rewrite Hnew in Hbs. injection Hbs as <-.
        destruct (Hown a0 R0 Ha0 HR0) as (vs0 & (_ & _ & Hb') & _).
        rewrite Hb0 in Hb'. destruct Hb' as (_ & arr & Harr & _).
        apply lookup_lt_Some in Harr. simpl in Harr. lia. }
    destruct (decide (a1 = a)) as [->|Hne1]; destruct (decide (a2 = a)) as [->|Hne2];
      try done.
    + rewrite list_lookup_insert_eq in H1 by done. injection H1 as <-.
      rewrite list_lookup_insert_ne in H2 by done. rewrite Hres' in H2.
      exfalso. by eapply (Hfresh a2 R2).
    + rewrite list_lookup_insert_eq in H2 by done. injection H2 as <-.
      rewrite list_lookup_insert_ne in H1 by done. rewrite Hres' in H1.
      exfalso. by eapply (Hfresh a1 R1).
    + rewrite list_lookup_insert_ne in H1 by done.
      rewrite list_lookup_insert_ne in H2 by done. rewrite Hres' in H1, H2.
      by eapply (Hdisj a1 a2 R1 R2 b).
Qed.

Lemma attached_range_cons p group version bygvr a d rs :
  attached_range p group version bygvr a (d :: rs)
  = (let r := Parse.defaultGroupVersion d group version in
     let '(resourceName, _, isSubResource) := Parse.subResource r in
     if negb isSubResource then []
     else match Parse.getOpenAPI p group version (Kind r) with
          | None => []
          | Some newSchema =>
              match bygvr !! (group, version, resourceName) with
              | None => []
              | Some parent =>
                  if decide (parent = Some a)
                  then [mkSubResource r parent (group, version) (Some newSchema)]
                  else []
              end
          end)
    ++ attached_range p group version bygvr a rs.
Proof.
  unfold attached_range. cbn [omap list_omap].
  destruct (Parse.subResource _) as [[n s] b]. destruct b; cbn [negb]; [|done].
  destruct (Parse.getOpenAPI _ _ _ _); [|done].
  destruct (bygvr !! _); [|done]. by case_decide.
Qed.

Lemma attachSubResources_range_attached p group version bygvr rs :
  ∀ h0 h1 h C,
    attachInv h0 h1 h C →
    (∀ gvr q, bygvr !! gvr = Some q →
       ∃ a, q = Some a ∧ length (hRes h0) ≤ a ∧ a < length (hRes h1)) →
    ∃ h',
      Parse.attachSubResources_range p group version rs bygvr h = Some (tt, h')
      ∧ attachInv h0 h1 h'
          (fun a => C a ++ attached_range p group version bygvr a rs).
Proof.
  induction rs as [|d rs IH]; intros h0 h1 h C Hinv Hby.
  - exists h. split; [done|]. eapply attachInv_ext; [|done].
    intros a. by rewrite app_nil_r.
  - assert (∀ C0 hx,
              attachInv h0 h1 hx C0 → (∀ a, C0 a = C a) →
              ∃ h', Parse.attachSubResources_range p group version rs bygvr hx
                    = Some (tt, h')
                    ∧ attachInv h0 h1 h'
                        (fun a => C a ++ attached_range p group version bygvr a rs))
      as Hskip.
    { intros C0 hx Hx Heq. destruct (IH h0 h1 hx C0 Hx Hby) as (h' & Hrun & Hinv').
      exists h'. split; [done|]. eapply attachInv_ext; [|done].
      intros a. cbv beta. by rewrite Heq. }
    cbn [Parse.attachSubResources_range].
    set (r := Parse.defaultGroupVersion d group version).
    destruct (Parse.subResource r) as [[resourceName sub] isSub] eqn:Hsub.
    assert (∀ a, attached_range p group version bygvr a (d :: rs)
                 = (if negb isSub then []
                    else match Parse.getOpenAPI p group version (Kind r) with
                         | None => []
                         | Some newSchema =>
                             match bygvr !! (group, version, resourceName) with
                             | None => []
                             | Some parent =>
                                 if decide (parent = Some a)
                                 then [mkSubResource r parent (group, version)
                                         (Some newSchema)]
                                 else []
                             end
                         end)
                   ++ attached_range p group version bygvr a rs) as Hcons.
    { intros a. rewrite attached_range_cons. cbv zeta. fold r. by rewrite Hsub. }
    destruct isSub; cbn [negb] in *.
    2:{ destruct (Hskip C h Hinv) as (h' & Hrun & Hinv'); [done|].
        exists h'. split; [done|]. eapply attachInv_ext; [|done].
        intros a. by rewrite Hcons. }
    destruct (Parse.getOpenAPI p group version (Kind r)) as [newSchema|].
    2:{ destruct (Hskip C h Hinv) as (h' & Hrun & Hinv'); [done|].
        exists h'. split; [done|]. eapply attachInv_ext; [|done].
        intros a. by rewrite Hcons. }
    destruct (bygvr !! (group, version, resourceName)) as [parent|] eqn:Hparent.
    2:{ destruct (Hskip C h Hinv) as (h' & Hrun & Hinv'); [done|].
        exists h'. split; [done|]. eapply attachInv_ext; [|done].
        intros a. by rewrite Hcons. }
    destruct (Hby _ _ Hparent) as (a & -> & Hge & Hlt).
    set (sr := mkSubResource r (Some a) (group, version) (Some newSchema)).
    assert (is_Some (hRes h !! a)) as [P HP].
    { apply lookup_lt_is_Some. destruct Hinv as (_ & _ & Hlen & _). lia. }
    destruct (attachInv_step h0 h1 h C a P sr Hinv Hge HP)
      as (s' & h2 & Happ & Hlt2 & Hinv3).
    destruct (IH h0 h1 _ _ Hinv3 Hby) as (h' & Hrun & Hinv').
    exists h'. split.
    + unfold bind at 1, newSubResource at 1. fold sr.
      unfold bind at 1, loadResource at 1. cbn [hRes]. rewrite HP.
      unfold bind at 1. rewrite Happ.
      unfold bind at 1, storeResource at 1. rewrite decide_True by done.
      exact Hrun.
    + eapply attachInv_ext; [|exact Hinv']. intros x. cbv beta.
      rewrite Hcons. fold sr.
      destruct (decide (x = a)) as [->|Hne].
      * rewrite decide_True by done. by rewrite <- app_assoc.
      * rewrite decide_False by congruence. done.
Qed.

Lemma attachSubResources_gvs_attached p bygvr gvs :
  ∀ h0 h1 h C,
    attachInv h0 h1 h C →
    (∀ gvr q, bygvr !! gvr = Some q →
       ∃ a, q = Some a ∧ length (hRes h0) ≤ a ∧ a < length (hRes h1)) →
    ∃ h',
      Parse.attachSubResources_gvs p gvs bygvr h = Some (tt, h')
      ∧ attachInv h0 h1 h' (fun a => C a ++ attached_gvs p bygvr a gvs).
Proof.
  induction gvs as [|gv gvs IH]; intros h0 h1 h C Hinv Hby.
  - exists h. split; [done|]. eapply attachInv_ext; [|done].
    intros a. by rewrite app_nil_r.
  - cbn [Parse.attachSubResources_gvs].
    assert (∀ a, attached_gvs p bygvr a (gv :: gvs)
                 = (let '(group, version) :=
                      Parse.splitGroupVersion (GroupVersion gv) in
                    if negb (Parse.isGroupVersionMatch p group version) then []
                    else attached_range p group version bygvr a (APIResources gv))
                   ++ attached_gvs p bygvr a gvs) as Hcons by done.
    destruct (Parse.splitGroupVersion (GroupVersion gv)) as [group version].
    destruct (Parse.isGroupVersionMatch p group version); cbn [negb] in *.
    + destruct (attachSubResources_range_attached p group version bygvr
                  (APIResources gv) h0 h1 h C Hinv Hby) as (h2 & Hrun2 & Hinv2).
      destruct (IH h0 h1 h2 _ Hinv2 Hby) as (h' & Hrun & Hinv').
      exists h'. unfold bind. rewrite Hrun2. split; [exact Hrun|].
      eapply attachInv_ext; [|exact Hinv']. intros a. cbv beta.
      by rewrite Hcons, app_assoc.
    + destruct (IH h0 h1 h C Hinv Hby) as (h' & Hrun & Hinv').
      exists h'. split; [done|]. eapply attachInv_ext; [|exact Hinv'].
      intros a. by rewrite Hcons.
Qed.

(** ** [Resources] as the composition of the two list functions *)

Lemma attachInv_start h0 h1 ix L :
  indexInv h0 h1 ix L → attachInv h0 h1 h1 (fun _ => []).
Proof.
  intros (Hpre & Hsub & Harr & Hnil & _).
  split_and!.
  - split_and!; [done|by rewrite Hsub|by rewrite Harr].
  - apply sameHeads_refl.
  - done.
  - intros a R Ha HR. exists []. rewrite (Hnil a R Ha HR).
    split; [by split_and!|constructor].
  - intros a a' R R' b Ha _ HR _ Hb. by rewrite (Hnil a R Ha HR) in Hb.
Qed.

Lemma Resources_refines p h :
  (discovery p).2 = None →
  ∃ r bygvr h1 h',
    Parse.indexResources p (discovery p).1 h = Some ((r, bygvr), h1)
    ∧ Parse.Resources p h = Some ((Some r, None), h')
    ∧ indexInv h h1 (r, bygvr) (indexed_gvs p (discovery p).1)
    ∧ attachInv h h1 h' (fun a => attached_gvs p bygvr a (discovery p).1).
Proof.
  intros Hok. unfold Parse.Resources, Parse.indexResources.
  destruct (discovery p) as [gvs err]. simpl in Hok. subst err. simpl.
  assert (indexedCatalog p gvs h ((∅, ∅) : Parse.indexes).1) as Hcat0.
  { intros k ps q Hk. simpl in Hk. by rewrite lookup_empty in Hk. }
  assert (wfParents h ((∅, ∅) : Parse.indexes).2) as Hpar0.
  { intros gvr q Hq. simpl in Hq. by rewrite lookup_empty in Hq. }
  destruct (indexResources_gvs_spec p gvs gvs (fun _ H => H) h _ Hcat0 Hpar0)
    as ([r bygvr] & h1 & Hrun1 & _).
  pose proof (indexResources_gvs_indexed p gvs h h _ [] _ _ Hrun1 (indexInv_start h))
    as Hix. rewrite app_nil_l in Hix.
  pose proof (attachInv_start _ _ _ _ Hix) as Hat0.
  destruct (attachSubResources_gvs_attached p bygvr gvs h h1 h1 _ Hat0)
    as (h' & Hrun2 & Hat).
  { intros gvr q Hq. destruct Hix as (_ & _ & _ & _ & _ & _ & Hby).
    destruct (Hby gvr q Hq) as (a & R & -> & Ha & HR & _).
    exists a. split; [done|]. split; [done|]. by eapply lookup_lt_Some. }
  exists r, bygvr, h1, h'. split; [exact Hrun1|]. split.
  - unfold bind, Parse.attachSubResources, bind. rewrite Hrun1, Hrun2. done.
  - split; [done|]. eapply attachInv_ext; [|exact Hat]. done.
Qed.

(** The catalog pointers after [Resources], with what they point to. *)
Lemma Resources_entries p h :
  (discovery p).2 = None →
  ∃ r bygvr h1 h',
    Parse.indexResources p (discovery p).1 h = Some ((r, bygvr), h1)
    ∧ Parse.Resources p h = Some ((Some r, None), h')
    ∧ indexInv h h1 (r, bygvr) (indexed_gvs p (discovery p).1)
    ∧ heap_ext h h'
    ∧ ∀ k ps q, r !! k = Some ps → q ∈ ps →
        ∃ a R0 s,
          q = Some a ∧ length (hRes h) ≤ a ∧ hRes h1 !! a = Some R0
          ∧ (k, R0) ∈ indexed_gvs p (discovery p).1
          ∧ loadEntry h' q
            = Some (withSubResources s R0,
                    attached_gvs p bygvr a (discovery p).1).
Proof.
  intros Hok.
  destruct (Resources_refines p h Hok) as (r & bygvr & h1 & h' & Hrun1 & Hrun & Hix & Hat).
  exists r, bygvr, h1, h'. split; [done|]. split; [done|]. split; [done|].
  destruct Hat as (Hext & Hsame & Hlen & Hown & _). split; [done|].
  intros k ps q Hk Hq.
  destruct Hix as (_ & _ & _ & _ & Hcat & _).
  specialize (Hcat k). cbn [fst] in Hcat. unfold ptr in *. rewrite Hk in Hcat.
  cbn [default from_option id] in Hcat.
  apply list_elem_of_lookup in Hq as [i Hi].
  destruct (Forall2_lookup_l _ _ _ _ _ Hcat Hi) as (R0 & HR0 & (a & -> & Ha & Hlk)).
  destruct (Hsame a R0 Hlk) as [s Hs].
  exists a, R0, s. split; [done|]. split; [done|]. split; [done|]. split.
  { apply list_lookup_fmap_Some in HR0 as ([k' R0'] & Heq & HR0).
    simpl in Heq. subst R0'.
    apply list_elem_of_lookup_2 in HR0. apply list_elem_of_filter in HR0 as [Hk' Hin].
    simpl in Hk'. by subst k'. }
  destruct (Hown a _ Ha Hs) as (vs & Hownvs & Hloads).
  apply loadEntry_Some. cbn [fst snd]. split.
  - apply loadResource_Some. split; [done|]. by exists a.
  - apply loadSubResources_Some. exists vs. split; [|done].
    by eapply ownedSlice_elems.
Qed.

(** ** Where indexed resources and attached subresources come from *)

Lemma resource_true_name r k :
  Parse.resource r = (k, true) → k = Name r ∧ occurs "/" (Name r) = false.
Proof.
  intros Hres. destruct (occurs "/" (Name r)) eqn:Hocc.
  - destruct (occurs_split _ _ Hocc) as (a & b & Hn & Ha).
    unfold Parse.resource, Parse.subResource in Hres.
    rewrite Hn, Split_app_sep in Hres by done.
    pose proof (Split_length b "/") as Hl.
    destruct (Strings.Split b "/"); [simpl in Hl; lia|by inversion Hres].
  - unfold Parse.resource, Parse.subResource in Hres.
    rewrite Split_no_sep in Hres by done. by inversion Hres.
Qed.

Lemma subResource_true_occurs r :
  (Parse.subResource r).2 = true → occurs "/" (Name r) = true.
Proof.
  intros H. destruct (occurs "/" (Name r)) eqn:Hocc; [done|].
  unfold Parse.subResource in H. by rewrite Split_no_sep in H.
Qed.

Lemma subResource_default d group version :
  Parse.subResource (Parse.defaultGroupVersion d group version)
  = Parse.subResource d.
Proof.
  unfold Parse.defaultGroupVersion, Parse.subResource.
  destruct (Nat.eqb (String.length (Group d)) 0); simpl;
    destruct (Nat.eqb _ 0); reflexivity.
Qed.

Lemma indexed_gvs_elem p gvs k R :
  (k, R) ∈ indexed_gvs p gvs →
  ∃ gv d s,
    gv ∈ gvs ∧ d ∈ APIResources gv
    ∧ Parse.isGroupVersionMatch p (Parse.splitGroupVersion (GroupVersion gv)).1
        (Parse.splitGroupVersion (GroupVersion gv)).2 = true
    ∧ R = mkResource
            (Parse.defaultGroupVersion d
               (Parse.splitGroupVersion (GroupVersion gv)).1
               (Parse.splitGroupVersion (GroupVersion gv)).2)
            (Parse.splitGroupVersion (GroupVersion gv)) (Some s) nilSlice
    ∧ Parse.resource (rResource R) = (k, true)
    ∧ resources p ((Parse.splitGroupVersion (GroupVersion gv)).1,
                   (Parse.splitGroupVersion (GroupVersion gv)).2, Kind d)
      = Some s.
Proof.
  unfold indexed_gvs. rewrite list_elem_of_In, in_flat_map.
  intros (gv & Hgv & Hin). apply list_elem_of_In in Hgv, Hin.
  destruct (Parse.splitGroupVersion (GroupVersion gv)) as [group version] eqn:Hs.
  destruct (Parse.isGroupVersionMatch p group version) eqn:Hm; cbn [negb] in Hin;
    [|by apply elem_of_nil in Hin].
  unfold indexed_range in Hin. apply list_elem_of_omap in Hin as (d & Hd & Hsome).
  cbv zeta in Hsome.
  destruct (Parse.resource (Parse.defaultGroupVersion d group version))
    as [name isRes] eqn:Hres.
  destruct isRes; cbn [negb] in Hsome; [|done].
  destruct (Parse.getOpenAPI p group version _) as [s|] eqn:Hlk; [|done].
  injection Hsome as <- <-.
  exists gv, d, s. rewrite !Hs. cbn [fst snd rResource]. split_and!; try done.
  unfold Parse.getOpenAPI in Hlk. by rewrite defaultGroupVersion_Kind in Hlk.
Qed.

Lemma attached_gvs_elem p bygvr a gvs sr :
  sr ∈ attached_gvs p bygvr a gvs →
  ∃ gv d s,
    gv ∈ gvs ∧ d ∈ APIResources gv
    ∧ Parse.isGroupVersionMatch p (Parse.splitGroupVersion (GroupVersion gv)).1
        (Parse.splitGroupVersion (GroupVersion gv)).2 = true
    ∧ sr = mkSubResource
             (Parse.defaultGroupVersion d
                (Parse.splitGroupVersion (GroupVersion gv)).1
                (Parse.splitGroupVersion (GroupVersion gv)).2)
             (Some a) (Parse.splitGroupVersion (GroupVersion gv)) (Some s)
    ∧ (Parse.subResource d).2 = true
    ∧ resources p ((Parse.splitGroupVersion (GroupVersion gv)).1,
                   (Parse.splitGroupVersion (GroupVersion gv)).2, Kind d)
      = Some s
    ∧ bygvr !! ((Parse.splitGroupVersion (GroupVersion gv)).1,
                (Parse.splitGroupVersion (GroupVersion gv)).2,
                (Parse.subResource d).1.1) = Some (Some a).
Proof.
  unfold attached_gvs. rewrite list_elem_of_In, in_flat_map.
  intros (gv & Hgv & Hin). apply list_elem_of_In in Hgv, Hin.
  destruct (Parse.splitGroupVersion (GroupVersion gv)) as [group version] eqn:Hs.
  destruct (Parse.isGroupVersionMatch p group version) eqn:Hm; cbn [negb] in Hin;
    [|by apply elem_of_nil in Hin].
  unfold attached_range in Hin. apply list_elem_of_omap in Hin as (d & Hd & Hsome).
  cbv zeta in Hsome. rewrite subResource_default in Hsome.
  destruct (Parse.subResource d) as [[name sub] isSub] eqn:Hsub.
  destruct isSub; cbn [negb] in Hsome; [|done].
  destruct (Parse.getOpenAPI p group version _) as [s|] eqn:Hlk; [|done].
  destruct (bygvr !! (group, version, name)) as [parent|] eqn:Hpar; [|done].
  case_decide; [|done]. subst parent. injection Hsome as <-.
  exists gv, d, s. rewrite !Hs, Hsub. cbn [fst snd]. split_and!; try done.
  unfold Parse.getOpenAPI in Hlk. by rewrite defaultGroupVersion_Kind in Hlk.
Qed.

(** ** Theorems about [Resources] *)

(** X10. When discovery succeeds, the catalog lists under every name
    exactly one resource for each descriptor of a matching announcement
    that is a resource with that name and whose schema resolves, in
    discovery order, each with the descriptor, group-version and schema the
    first pass gave it; no name maps to an empty list. *)
Theorem Resources_catalog_order (p : Parser) (h : heap) :
  (discovery p).2 = None →
  ∃ r h',
    Parse.Resources p h = Some ((Some r, None), h')
    ∧ ∀ k,
        r !! k ≠ Some []
        ∧ Forall2 (fun q R0 => ∃ s, loadResource q h'
                                    = Some (withSubResources s R0, h'))
            (default [] (r !! k))
            (snd <$> filter (fun x => x.1 = k) (indexed_gvs p (discovery p).1)).
Proof.
  intros Hok.
  destruct (Resources_refines p h Hok)
    as (r & bygvr & h1 & h' & _ & Hrun & Hix & Hat).
  exists r, h'. split; [done|]. intros k.
  destruct Hix as (_ & _ & _ & _ & Hcat & Hne & _).
  destruct Hat as (_ & Hsame & _).
  split; [apply Hne|].
  eapply Forall2_impl; [apply (Hcat k)|].
  intros q R0 (a & -> & _ & Hlk). destruct (Hsame a R0 Hlk) as [s Hs].
  exists s. apply loadResource_Some. split; [done|]. by exists a.
Qed.

(** X11. When discovery succeeds, [Resources] leaves every object that
    existed before the call in place and returns a valid catalog, in which
    the resource at address [a] lists exactly the subresource descriptors
    of matching announcements whose schema resolves and whose parent key
    (group, version, name before the slash) the first pass mapped to [a],
    in discovery order. *)
Theorem Resources_subresources (p : Parser) (h : heap) :
  (discovery p).2 = None →
  ∃ r bygvr h1 h',
    Parse.indexResources p (discovery p).1 h = Some ((r, bygvr), h1)
    ∧ Parse.Resources p h = Some ((Some r, None), h')
    ∧ heap_ext h h'
    ∧ validCatalog h' r
    ∧ ∀ k ps q, r !! k = Some ps → q ∈ ps →
        ∃ a R, q = Some a
               ∧ loadEntry h' q
                 = Some (R, attached_gvs p bygvr a (discovery p).1).
Proof.
  intros Hok.
  destruct (Resources_entries p h Hok)
    as (r & bygvr & h1 & h' & Hrun1 & Hrun & _ & Hext & Hent).
  exists r, bygvr, h1, h'. split_and!; try done.
  - intros k ps Hk. apply mapM_is_Some. apply Forall_forall. intros q Hq.
    destruct (Hent k ps q Hk Hq) as (a & R0 & s & _ & _ & _ & _ & Hload).
    by eexists.
  - intros k ps q Hk Hq.
    destruct (Hent k ps q Hk Hq) as (a & R0 & s & -> & _ & _ & _ & Hload).
    by exists a, (withSubResources s R0).
Qed.

(** X12. Every subresource in the list of a catalog resource points back
    to that resource, has its group-version, has a slash in its name, has
    the resource's kind as the name before the slash, and carries the
    schema that the lookup returned for its own group, version and kind. *)
Theorem Resources_back_references (p : Parser) (h : heap) :
  (discovery p).2 = None →
  ∃ r h',
    Parse.Resources p h = Some ((Some r, None), h')
    ∧ ∀ k ps q, r !! k = Some ps → q ∈ ps →
        ∃ R srs,
          loadEntry h' q = Some (R, srs)
          ∧ ∀ sr, sr ∈ srs →
              srParent sr = q
              ∧ srApiGroupVersion sr = rApiGroupVersion R
              ∧ occurs "/" (Name (srResource sr)) = true
              ∧ (Parse.subResource (srResource sr)).1.1 = Kind (rResource R)
              ∧ is_Some (srSchema sr)
              ∧ resources p (SubResource_APIGroupVersionKind sr) = srSchema sr.
Proof.
  intros Hok.
  destruct (Resources_entries p h Hok)
    as (r & bygvr & h1 & h' & Hrun1 & Hrun & Hix & Hext & Hent).
  exists r, h'. split; [done|]. intros k ps q Hk Hq.
  destruct (Hent k ps q Hk Hq) as (a & R0 & s & -> & Ha & HR0 & _ & Hload).
  eexists _, _. split; [exact Hload|]. intros sr Hsr.
  apply attached_gvs_elem in Hsr
    as (gv & d & sc & Hgv & Hd & Hm & -> & Hsub & Hlk & Hby).
  destruct Hix as (_ & _ & _ & _ & _ & _ & Hbyinv).
  destruct (Hbyinv _ _ Hby) as (a' & R1 & [= <-] & _ & HR1 & Hkey & _).
  assert (R1 = R0) as -> by congruence.
  injection Hkey as Hg Hv Hkind.
  cbn [srParent srApiGroupVersion srResource srSchema withSubResources
         rApiGroupVersion rResource].
  split_and!.
  - done.
  - by apply injective_projections.
  - apply subResource_true_occurs. by rewrite subResource_default.
  - by rewrite subResource_default.
  - by eexists.
  - unfold SubResource_APIGroupVersionKind.
    cbn [srApiGroupVersion srResource srSchema].
    by rewrite defaultGroupVersion_Kind.
Qed.

(** X13. If no descriptor's kind is spelled like the parent name of a
    descriptor, the second pass attaches nothing: every resource of the
    catalog has an empty subresource list. *)
Theorem Resources_no_parent_no_subresource (p : Parser) (h : heap) :
  (discovery p).2 = None →
  (∀ gv gv' d d',
     gv ∈ (discovery p).1 → gv' ∈ (discovery p).1 →
     d ∈ APIResources gv → d' ∈ APIResources gv' →
     Kind d ≠ (Parse.subResource d').1.1) →
  ∃ r h',
    Parse.Resources p h = Some ((Some r, None), h')
    ∧ ∀ k ps q, r !! k = Some ps → q ∈ ps →
        ∃ R, loadEntry h' q = Some (R, []).
Proof.
  intros Hok Hkinds.
  destruct (Resources_entries p h Hok)
    as (r & bygvr & h1 & h' & Hrun1 & Hrun & Hix & Hext & Hent).
  exists r, h'. split; [done|]. intros k ps q Hk Hq.
  destruct (Hent k ps q Hk Hq) as (a & R0 & s & -> & Ha & HR0 & _ & Hload).
  exists (withSubResources s R0). rewrite Hload. f_equal. f_equal.
  destruct (attached_gvs p bygvr a (discovery p).1) as [|sr srs] eqn:Hatt; [done|].
  exfalso.
  assert (sr ∈ attached_gvs p bygvr a (discovery p).1) as Hsr
    by (rewrite Hatt; by left).
  apply attached_gvs_elem in Hsr
    as (gv' & d' & sc & Hgv' & Hd' & _ & _ & _ & _ & Hby).
  destruct Hix as (_ & _ & _ & _ & _ & _ & Hbyinv).
  destruct (Hbyinv _ _ Hby) as (a' & R1 & _ & _ & _ & Hkey & Hin).
  injection Hkey as _ _ Hkind.
  apply list_elem_of_fmap in Hin as ([k1 R1'] & Heq & Hin). simpl in Heq. subst R1'.
  apply indexed_gvs_elem in Hin as (gv & d & s1 & Hgv & Hd & _ & -> & _).
  cbn [rResource] in Hkind. rewrite defaultGroupVersion_Kind in Hkind.
  by eapply (Hkinds gv gv' d d').
Qed.

(** X14. Every resource of the catalog is filed under its own descriptor
    name, which contains no slash, and [LookupResource] on its
    [APIGroupVersionKind] returns its schema. *)
Theorem Resources_keys_are_names (p : Parser) (h : heap) :
  (discovery p).2 = None →
  ∃ r h',
    Parse.Resources p h = Some ((Some r, None), h')
    ∧ ∀ k ps q, r !! k = Some ps → q ∈ ps →
        ∃ R, loadResource q h' = Some (R, h')
             ∧ k = Name (rResource R)
             ∧ occurs "/" k = false
             ∧ resources p (Resource_APIGroupVersionKind R) = rSchema R.
Proof.
  intros Hok. pose proof (Resources_spec p h) as H. rewrite Hok in H.
  destruct H as (r & h' & Hrun & Hcat). exists r, h'. split; [done|].
  intros k ps q Hk Hq. destruct (Hcat k ps q Hk Hq) as (a & R & -> & Ha & Hfrom).
  exists R. split; [apply loadResource_Some; split; [done|by exists a]|].
  destruct Hfrom as (gv & d & s & _ & _ & _ & HR & Hname & Hgv & Hs & Hlk).
  apply resource_true_name in Hname as [-> Hocc]. split; [done|]. split; [done|].
  unfold Resource_APIGroupVersionKind.
  by rewrite Hgv, HR, defaultGroupVersion_Kind, Hs.
Qed.

(** X15. The catalog that [Resources] returns can be filtered with any
    filter, in any iteration order: [Filter] returns, with names among the
    catalog's, leaves the catalog as it was, and leaves in place every
    object that existed before the call of [Resources]. *)
Theorem Resources_then_Filter (p : Parser) (h : heap) (f : Filter) :
  (discovery p).2 = None →
  ∃ r h',
    Parse.Resources p h = Some ((Some r, None), h')
    ∧ ∀ order, order ≡ₚ map_to_list r →
        ∃ r' h'',
          Resources.Filter order f h' = Some (r', h'')
          ∧ dom r' ⊆ dom r
          ∧ viewCatalog h'' r = viewCatalog h' r
          ∧ heap_ext h h''.
Proof.
  intros Hok.
  destruct (Resources_entries p h Hok)
    as (r & bygvr & h1 & h' & Hrun1 & Hrun & _ & Hext & Hent).
  exists r, h'. split; [done|]. intros order Hperm.
  assert (validCatalog h' r) as Hvalid.
  { intros k ps Hk. apply mapM_is_Some. apply Forall_forall. intros q Hq.
    destruct (Hent k ps q Hk Hq) as (a & R0 & s & _ & _ & _ & _ & Hload).
    by eexists. }
  destruct (Filter_full f r order h' Hperm Hvalid)
    as (r' & h'' & Hrun' & Hext' & _ & _ & Hdom & _).
  exists r', h''. split_and!; try done.
  - by apply viewCatalog_ext.
  - by eapply heap_ext_trans.
Qed.

(** ** Instances on concrete catalogs and announcements *)

Lemma headOnly_emptyFilter : headOnly emptyFilter.
Proof. by intros R s. Qed.

Lemma headOnly_skipSubresourceFilter : headOnly skipSubresourceFilter.
Proof. by intros R s. Qed.

Lemma parser_apps_v1_kinds :
  ∀ gv gv' d d',
    gv ∈ (discovery parser_apps_v1).1 → gv' ∈ (discovery parser_apps_v1).1 →
    d ∈ APIResources gv → d' ∈ APIResources gv' →
    Kind d ≠ (Parse.subResource d').1.1.
Proof.
  intros gv gv' d d' Hgv Hgv' Hd Hd'. simpl in Hgv, Hgv'.
  apply list_elem_of_singleton in Hgv, Hgv'. subst gv gv'. simpl in Hd, Hd'.
  apply elem_of_cons in Hd as [->|Hd]; [|apply list_elem_of_singleton in Hd as ->];
    (apply elem_of_cons in Hd' as [->|Hd'];
     [|apply list_elem_of_singleton in Hd' as ->]);
    vm_compute; discriminate.
Qed.

Lemma Filter_content_witness :
  map_to_list catalog_deployments ≡ₚ map_to_list catalog_deployments
  ∧ validCatalog heap_deployments catalog_deployments
  ∧ ∃ r' h',
      Resources.Filter (map_to_list catalog_deployments)
        (orFilter [skipSubresourceFilter]) heap_deployments = Some (r', h')
      ∧ ∀ k, ∃ es,
          mapM (loadEntry heap_deployments)
            (default [] (catalog_deployments !! k)) = Some es
          ∧ viewList h' (default [] (r' !! k))
            = Some (keptViews (orFilter [skipSubresourceFilter]) es).
Proof.
  split; [reflexivity|]. split; [exact validCatalog_deployments|].
  apply Filter_content; [reflexivity|exact validCatalog_deployments].
Defined.

Lemma Filter_leaves_source_witness :
  map_to_list catalog_deployments ≡ₚ map_to_list catalog_deployments
  ∧ validCatalog heap_deployments catalog_deployments
  ∧ ∃ r' h',
      Resources.Filter (map_to_list catalog_deployments)
        skipSubresourceFilter heap_deployments = Some (r', h')
      ∧ heap_ext heap_deployments h'
      ∧ hSub h' = hSub heap_deployments
      ∧ viewCatalog h' catalog_deployments
        = viewCatalog heap_deployments catalog_deployments
      ∧ validCatalog h' r'
      ∧ dom r' ⊆ dom catalog_deployments.
Proof.
  split; [reflexivity|]. split; [exact validCatalog_deployments|].
  apply (Filter_leaves_source skipSubresourceFilter catalog_deployments
           (map_to_list catalog_deployments) heap_deployments);
    [reflexivity|exact validCatalog_deployments].
Defined.

Lemma Filter_twice_is_and_witness :
  map_to_list catalog_deployments ≡ₚ map_to_list catalog_deployments
  ∧ validCatalog heap_deployments catalog_deployments
  ∧ headOnly emptyFilter ∧ headOnly skipSubresourceFilter
  ∧ ∃ r1 h1 r3 h3,
      Resources.Filter (map_to_list catalog_deployments) emptyFilter
        heap_deployments = Some (r1, h1)
      ∧ Resources.Filter (map_to_list catalog_deployments)
          (andFilter [emptyFilter; skipSubresourceFilter]) heap_deployments
        = Some (r3, h3)
      ∧ ∀ order1, order1 ≡ₚ map_to_list r1 →
          ∃ r2 h2,
            Resources.Filter order1 skipSubresourceFilter h1 = Some (r2, h2)
            ∧ ∀ k, viewList h2 (default [] (r2 !! k))
                   = viewList h3 (default [] (r3 !! k)).
Proof.
  split; [reflexivity|]. split; [exact validCatalog_deployments|].
  split; [exact headOnly_emptyFilter|].
  split; [exact headOnly_skipSubresourceFilter|].
  apply (Filter_twice_is_and emptyFilter skipSubresourceFilter
           catalog_deployments (map_to_list catalog_deployments) heap_deployments);
    [reflexivity|exact validCatalog_deployments|exact headOnly_emptyFilter
    |exact headOnly_skipSubresourceFilter].
Defined.

Lemma Resources_catalog_order_witness :
  (discovery parser_widgets).2 = None
  ∧ ∃ r h',
      Parse.Resources parser_widgets emptyHeap = Some ((Some r, None), h')
      ∧ ∀ k,
          r !! k ≠ Some []
          ∧ Forall2 (fun q R0 => ∃ s, loadResource q h'
                                      = Some (withSubResources s R0, h'))
              (default [] (r !! k))
              (snd <$> filter (fun x => x.1 = k)
                         (indexed_gvs parser_widgets (discovery parser_widgets).1)).
Proof.
  split; [reflexivity|].
  apply (Resources_catalog_order parser_widgets emptyHeap). reflexivity.
Defined.

Lemma Resources_subresources_witness :
  (discovery parser_widgets).2 = None
  ∧ ∃ r bygvr h1 h',
      Parse.indexResources parser_widgets (discovery parser_widgets).1 emptyHeap
      = Some ((r, bygvr), h1)
      ∧ Parse.Resources parser_widgets emptyHeap = Some ((Some r, None), h')
      ∧ heap_ext emptyHeap h'
      ∧ validCatalog h' r
      ∧ ∀ k ps q, r !! k = Some ps → q ∈ ps →
          ∃ a R, q = Some a
                 ∧ loadEntry h' q
                   = Some (R, attached_gvs parser_widgets bygvr a
                                (discovery parser_widgets).1).
Proof.
  split; [reflexivity|].
  apply (Resources_subresources parser_widgets emptyHeap). reflexivity.
Defined.

Lemma Resources_back_references_witness :
  (discovery parser_widgets).2 = None
  ∧ ∃ r h',
      Parse.Resources parser_widgets emptyHeap = Some ((Some r, None), h')
      ∧ ∀ k ps q, r !! k = Some ps → q ∈ ps →
          ∃ R srs,
            loadEntry h' q = Some (R, srs)
            ∧ ∀ sr, sr ∈ srs →
                srParent sr = q
                ∧ srApiGroupVersion sr = rApiGroupVersion R
                ∧ occurs "/" (Name (srResource sr)) = true
                ∧ (Parse.subResource (srResource sr)).1.1 = Kind (rResource R)
                ∧ is_Some (srSchema sr)
                ∧ resources parser_widgets (SubResource_APIGroupVersionKind sr)
                  = srSchema sr.
Proof.
  split; [reflexivity|].
  apply (Resources_back_references parser_widgets emptyHeap). reflexivity.
Defined.

Lemma Resources_no_parent_no_subresource_witness :
  (discovery parser_apps_v1).2 = None
  ∧ (∀ gv gv' d d',
       gv ∈ (discovery parser_apps_v1).1 → gv' ∈ (discovery parser_apps_v1).1 →
       d ∈ APIResources gv → d' ∈ APIResources gv' →
       Kind d ≠ (Parse.subResource d').1.1)
  ∧ ∃ r h',
      Parse.Resources parser_apps_v1 emptyHeap = Some ((Some r, None), h')
      ∧ ∀ k ps q, r !! k = Some ps → q ∈ ps →
          ∃ R, loadEntry h' q = Some (R, []).
Proof.
  split; [reflexivity|]. split; [exact parser_apps_v1_kinds|].
  apply (Resources_no_parent_no_subresource parser_apps_v1 emptyHeap);
    [reflexivity|exact parser_apps_v1_kinds].
Defined.

Lemma Resources_keys_are_names_witness :
  (discovery parser_widgets).2 = None
  ∧ ∃ r h',
      Parse.Resources parser_widgets emptyHeap = Some ((Some r, None), h')
      ∧ ∀ k ps q, r !! k = Some ps → q ∈ ps →
          ∃ R, loadResource q h' = Some (R, h')
               ∧ k = Name (rResource R)
               ∧ occurs "/" k = false
               ∧ resources parser_widgets (Resource_APIGroupVersionKind R)
                 = rSchema R.
Proof.
  split; [reflexivity|].
  apply (Resources_keys_are_names parser_widgets emptyHeap). reflexivity.
Defined.

Lemma Resources_then_Filter_witness :
  (discovery parser_widgets).2 = None
  ∧ ∃ r h',
      Parse.Resources parser_widgets emptyHeap = Some ((Some r, None), h')
      ∧ ∀ order, order ≡ₚ map_to_list r →
          ∃ r' h'',
            Resources.Filter order skipSubresourceFilter h' = Some (r', h'')
            ∧ dom r' ⊆ dom r
            ∧ viewCatalog h'' r = viewCatalog h' r
            ∧ heap_ext emptyHeap h''.
Proof.
  split; [reflexivity|].
  apply (Resources_then_Filter parser_widgets emptyHeap skipSubresourceFilter).
  reflexivity.
Defined.

(** On [parser_widgets] the parent is found: the resource [widgets] gets
    the subresources [status] and [scale], in announcement order, although
    [status] is announced before its parent. *)
Example Resources_widgets :
  ∃ h',
    Parse.Resources parser_widgets emptyHeap
    = Some ((Some {[ "widgets" := [Some 0] ]}, None), h')
    ∧ snd <$> loadEntry h' (Some 0)
      = Some [mkSubResource (Parse.withGroup "v1" widgets_status) (Some 0)
                ("example.io", "v1") (Some (SchemaRef 1));
              mkSubResource (Parse.withGroup "v1" widgets_scale) (Some 0)
                ("example.io", "v1") (Some (SchemaRef 1))].
Proof. eexists. split; vm_compute; reflexivity. Qed.

(** * The accept-all filter, up to Go's deep equality *)

(** ** The subresource list of a copy is never nil *)

Lemma append_nonnil s v h s' h' :
  append s v h = Some (s', h') → s_nil s' = false.
Proof.
  unfold append. destruct (Nat.ltb (s_len s) (s_cap s)).
  - unfold bind, storeIndex, ret. destruct (s_base s) as [b|]; [|done].
    destruct (hArr h !! b); [|done]. case_decide; [|done]. by intros [= <- <-].
  - unfold bind. destruct (sliceElems s h) as [[old h1]|] eqn:E; [|done].
    unfold newArray, ret. by intros [= <- <-].
Qed.

Lemma filterSubResources_range_nonnil f vs :
  ∀ filtered h s' h',
    Resources.filterSubResources_range f vs filtered h = Some (s', h') →
    s_nil filtered = false → s_nil s' = false.
Proof.
  induction vs as [|v vs IH]; intros filtered h s' h'; simpl.
  - by intros [= <- <-].
  - intros Hrun Hnil. apply bind_Some in Hrun as (sr & h1 & Hload & Hrun).
    destruct (Filters.subResource f sr); simpl in Hrun; [|by eapply IH].
    apply bind_Some in Hrun as (s1 & h2 & Happ & Hrun).
    apply append_nonnil in Happ. by eapply IH.
Qed.

Lemma Filter_versions_nonnil f k v :
  ∀ filtered h r' h',
    Resources.Filter_versions f k v filtered h = Some (r', h') →
    ∃ news, hRes h' = hRes h ++ news
            ∧ Forall (λ R, s_nil (rSubResources R) = false) news.
Proof.
  induction v as [|version v IH]; intros filtered h r' h'; simpl.
  - intros [= <- <-]. exists []. by rewrite app_nil_r.
  - intros Hrun. apply bind_Some in Hrun as (R & h1 & Hload & Hrun).
    apply loadResource_Some in Hload as [-> _].
    destruct (Filters.resource f R); simpl in Hrun; [|by eapply IH].
    apply bind_Some in Hrun as (copy & h2 & Hcopy & Hrun).
    apply bind_Some in Hrun as (pc & h3 & Hnew & Hrun).
    unfold Resources.filterSubResources in Hcopy.
    apply bind_Some in Hcopy as (vs & h4 & Hvs & Hcopy).
    apply sliceElems_Some in Hvs as [-> _].
    apply bind_Some in Hcopy as (s' & h5 & Hrange & Hret).
    injection Hret as <- <-.
    apply filterSubResources_range_same_objects in Hrange as Hsame.
    destruct Hsame as [Hr _].
    apply filterSubResources_range_nonnil in Hrange; [|done].
    unfold newResource in Hnew. injection Hnew as <- <-.
    apply IH in Hrun as (news & Hnews & HF). simpl in Hnews.
    exists (withSubResources s' R :: news). split.
    + rewrite Hnews, Hr, <- app_assoc. done.
    + by constructor.
Qed.

Lemma Filter_range_nonnil f order :
  ∀ filtered h r' h',
    Resources.Filter_range f order filtered h = Some (r', h') →
    ∃ news, hRes h' = hRes h ++ news
            ∧ Forall (λ R, s_nil (rSubResources R) = false) news.
Proof.
  induction order as [|[k v] order IH]; intros filtered h r' h'; simpl.
  - intros [= <- <-]. exists []. by rewrite app_nil_r.
  - intros Hrun. apply bind_Some in Hrun as (f1 & h1 & Hv & Hrun).
    apply Filter_versions_nonnil in Hv as (n1 & H1 & HF1).
    apply IH in Hrun as (n2 & H2 & HF2).
    exists (n1 ++ n2). split.
    + by rewrite H2, H1, <- app_assoc.
    + by apply Forall_app.
Qed.

(** A resource that [Filter] allocated has a subresource list that is not
    nil. *)
Lemma Filter_fresh_nonnil f order h r' h' p e :
  Resources.Filter order f h = Some (r', h') →
  freshResource h h' p → loadEntry h' p = Some e →
  s_nil (rSubResources e.1) = false.
Proof.
  intros Hrun (a & R & vs & -> & Ha & HR & _) He.
  apply Filter_range_nonnil in Hrun as (news & Hnews & HF).
  apply loadEntry_Some in He as [Hload _].
  apply loadResource_Some in Hload as (_ & a' & [= <-] & HR').
  rewrite Hnews, lookup_app_r in HR' by done.
  rewrite Forall_forall in HF. apply HF.
  by eapply list_elem_of_lookup_2.
Qed.

Lemma deepOf_copies es es' :
  viewOf <$> es' = viewOf <$> es →
  Forall (λ e : entry, s_nil (rSubResources e.1) = false) es' →
  deepOf <$> es' = nonNil <$> (deepOf <$> es).
Proof.
  revert es. induction es' as [|e' es' IH]; intros [|e es];
    rewrite ?fmap_cons, ?fmap_nil; try done.
  intros Hv HF. apply (inj2 cons) in Hv as [Hv Hvs].
  apply Forall_cons in HF as [Hnil HF].
  f_equal; [|by apply IH].
  unfold deepOf, nonNil. cbn [fst snd]. by rewrite Hv, Hnil.
Qed.

Lemma deepOf_nonNil es :
  Forall (λ e : entry, s_nil (rSubResources e.1) = false) es →
  nonNil <$> (deepOf <$> es) = deepOf <$> es.
Proof.
  induction 1 as [|e es Hnil _ IH]; rewrite ?fmap_cons, ?fmap_nil; [done|].
  f_equal; [|done]. unfold deepOf, nonNil. cbn [fst snd]. by rewrite Hnil.
Qed.

Lemma deepCatalog_ext h h' (r : Resources) :
  heap_ext h h' → validCatalog h r → deepCatalog h' r = deepCatalog h r.
Proof.
  intros Hext Hv. apply map_eq. intros k. unfold deepCatalog.
  rewrite !lookup_fmap. destruct (r !! k) as [ps|] eqn:E; simpl; [|done].
  f_equal. unfold deepList.
  destruct (Hv k ps E) as [es Hes].
  by rewrite Hes, (loadEntries_ext _ _ _ _ Hext Hes).
Qed.

(** ** The result of the accept-all filter *)

(** C4, amended. Take a catalog as the package builds it: every pointer of
    the catalog and of its subresource lists points to an allocated
    object ([validCatalog]), and every name has at least one resource.
    [Filter] with the accept-all filter returns a catalog with the same
    names and, under each name, as many resources in the same order, each
    with the descriptor, group-version, schema and subresources of its
    source. The result is deeply equal to the source except in one
    respect: the subresource list of every copy is a slice that is not
    nil, also where the list of the source is nil. It is therefore deeply
    equal to the source exactly when no resource of the source has a nil
    subresource list. The source is left as it was. Every resource of the
    result is a new object, different from every resource of the source,
    and appending to its subresource list or overwriting one of its
    entries leaves the source catalog unchanged. *)
Theorem Filter_accept_all_copy (r : Resources)
    (order : list (string * list ptr)) (h : heap) :
  order ≡ₚ map_to_list r →
  validCatalog h r →
  (∀ k ps, r !! k = Some ps → ps ≠ []) →
  ∃ r' h',
    Resources.Filter order Filters.NewEmptyFilter h = Some (r', h')
    ∧ viewCatalog h' r' = viewCatalog h r
    ∧ deepCatalog h' r' = nonNilCatalog (deepCatalog h r)
    ∧ (deepCatalog h' r' = deepCatalog h r
       ↔ ∀ k ps p e, r !! k = Some ps → p ∈ ps → loadEntry h p = Some e →
           s_nil (rSubResources e.1) = false)
    ∧ viewCatalog h' r = viewCatalog h r
    ∧ deepCatalog h' r = deepCatalog h r
    ∧ (∀ k' ps' p', r' !! k' = Some ps' → p' ∈ ps' →
         (∀ k ps p, r !! k = Some ps → p ∈ ps → p ≠ p')
         ∧ (∀ v, ∃ h'', appendSubResource p' v h' = Some (tt, h'')
                        ∧ viewCatalog h'' r = viewCatalog h r
                        ∧ deepCatalog h'' r = deepCatalog h r)
         ∧ (∀ i v, ∃ view, viewResource h' p' = Some view
                   ∧ (i < length (vSubResources view) →
                      ∃ h'', setSubResource p' i v h' = Some (tt, h'')
                             ∧ viewCatalog h'' r = viewCatalog h r
                             ∧ deepCatalog h'' r = deepCatalog h r))).
Proof.
  intros Hperm Hvalid Hne.
  destruct (Filter_spec emptyFilter r order h Hperm Hvalid)
    as (r' & h' & Hrun & Hext & Hnone & Hsome).
  assert (∀ k v, r !! k = Some v →
            ∃ ps' es es',
              mapM (loadEntry h) v = Some es
              ∧ r' !! k = Some ps'
              ∧ mapM (loadEntry h') ps' = Some es'
              ∧ viewOf <$> es' = viewOf <$> es
              ∧ Forall (freshResource h h') ps'
              ∧ Forall (λ e : entry, s_nil (rSubResources e.1) = false) es')
    as Hcopy.
  { intros k v Hr.
    destruct (Hsome k v Hr) as (ps' & es & es' & Hes & Hlk & Hes' & Hv & Hf).
    rewrite keptViews_accepting in Hv by done.
    assert (viewOf <$> es' = viewOf <$> es) as Hv'.
    { rewrite Hv. apply list_fmap_ext. intros i [R srs] _.
      unfold filterView, viewOf. simpl. by rewrite filter_true. }
    assert (ps' ≠ []) as Hps'.
    { intros ->. apply mapM_length_eq in Hes, Hes'.
      apply (f_equal length) in Hv'. rewrite !length_fmap in Hv'.
      apply (Hne k v Hr). destruct v; [done|simpl in *; lia]. }
    exists ps', es, es'. split; [done|]. split.
    { rewrite Hlk. by destruct ps'. }
    split; [done|]. split; [done|]. split; [done|].
    apply mapM_Some in Hes'. rewrite Forall_forall in Hf.
    apply Forall_forall. intros e He.
    apply list_elem_of_lookup in He as [j Hj].
    destruct (Forall2_lookup_r _ _ _ _ _ Hes' Hj) as (p' & Hp' & Hload).
    eapply Filter_fresh_nonnil; [exact Hrun| |exact Hload].
    apply Hf. by eapply list_elem_of_lookup_2. }
  assert (deepCatalog h' r' = nonNilCatalog (deepCatalog h r))
    as Hdeep.
  { apply map_eq. intros k. unfold nonNilCatalog, deepCatalog.
    rewrite !lookup_fmap.
    destruct (r !! k) as [v|] eqn:Hr.
    - destruct (Hcopy k v Hr) as (ps' & es & es' & Hes & Hlk & Hes' & Hv & _ & Hn).
      rewrite Hlk. simpl. f_equal. unfold deepList. rewrite Hes, Hes'. simpl.
      f_equal. by apply deepOf_copies.
    - by rewrite (Hnone k Hr). }
  exists r', h'. split; [done|]. split; [|split; [done|split; [|split; [|split]]]].
  - apply map_eq. intros k. unfold viewCatalog. rewrite !lookup_fmap.
    destruct (r !! k) as [v|] eqn:Hr.
    + destruct (Hcopy k v Hr) as (ps' & es & es' & Hes & Hlk & Hes' & Hv & _).
      rewrite Hlk. simpl. f_equal.
      by rewrite (viewList_entries _ _ _ Hes'), (viewList_entries _ _ _ Hes), Hv.
    + by rewrite (Hnone k Hr).
  - rewrite Hdeep. split.
    + intros Heq k ps p e Hk Hp He.
      apply (f_equal (λ m, m !! k)) in Heq.
      unfold nonNilCatalog, deepCatalog in Heq.
      rewrite !lookup_fmap, Hk in Heq. simpl in Heq.
      destruct (Hvalid k ps Hk) as [es Hes].
      unfold deepList in Heq. rewrite Hes in Heq. simpl in Heq.
      injection Heq as Heq.
      apply mapM_Some in Hes.
      apply list_elem_of_lookup in Hp as [j Hj].
      destruct (Forall2_lookup_l _ _ _ _ _ Hes Hj) as (e' & Hj' & He').
      rewrite He in He'. injection He' as <-.
      apply (f_equal (λ l, l !! j)) in Heq.
      rewrite !list_lookup_fmap, Hj' in Heq. simpl in Heq.
      injection Heq as Heq. done.
    + intros Hall. apply map_eq. intros k. unfold nonNilCatalog, deepCatalog.
      rewrite !lookup_fmap. destruct (r !! k) as [ps|] eqn:Hk; [|done].
      simpl. f_equal. destruct (Hvalid k ps Hk) as [es Hes].
      unfold deepList. rewrite Hes. simpl. f_equal.
      apply deepOf_nonNil. apply mapM_Some in Hes.
      apply Forall_forall. intros e He.
      apply list_elem_of_lookup in He as [j Hj].
      destruct (Forall2_lookup_r _ _ _ _ _ Hes Hj) as (p & Hp & Hload).
      eapply Hall; [exact Hk| |exact Hload]. by eapply list_elem_of_lookup_2.
  - by apply viewCatalog_ext.
  - by apply deepCatalog_ext.
  - intros k' ps' p' Hk' Hp'.
    assert (freshResource h h' p') as Hfresh.
    { destruct (r !! k') as [v|] eqn:Hr; [|by rewrite (Hnone k' Hr) in Hk'].
      destruct (Hcopy k' v Hr) as (qs & es & es' & _ & Hlk & _ & _ & Hf & _).
      rewrite Hk' in Hlk. injection Hlk as ->.
      rewrite Forall_forall in Hf. by apply Hf. }
    split; [|split].
    + intros k ps p Hk Hp ->.
      destruct (validCatalog_pointer h r k ps p' Hvalid Hk Hp) as (a & -> & Ha).
      destruct Hfresh as (a' & _ & _ & [= <-] & Ha' & _). lia.
    + intros v. destruct (appendSubResource_fresh h h' p' v Hext Hfresh)
        as (h'' & Hrun'' & Hext'').
      exists h''. split; [done|].
      split; [by apply viewCatalog_ext|by apply deepCatalog_ext].
    + intros i v.
      destruct (r !! k') as [v0|] eqn:Hr; [|by rewrite (Hnone k' Hr) in Hk'].
      destruct (Hcopy k' v0 Hr) as (qs & es & es' & _ & Hlk & Hes' & _).
      rewrite Hk' in Hlk. injection Hlk as ->.
      apply mapM_Some in Hes'.
      apply list_elem_of_lookup in Hp' as [j Hj].
      destruct (Forall2_lookup_l _ _ _ _ _ Hes' Hj) as (e & _ & He).
      exists (viewOf e). split; [unfold viewResource; by rewrite He|].
      simpl. intros Hi. rewrite (entry_subs_length _ _ _ He) in Hi.
      apply loadEntry_Some in He as [Hload _].
      destruct (setSubResource_fresh h h' p' i v e.1 Hext Hfresh Hload Hi)
        as (h'' & Hrun'' & Hext'').
      exists h''. split; [done|].
      split; [by apply viewCatalog_ext|by apply deepCatalog_ext].
Qed.

(** On the catalog of [heap_deployments], whose resource has a subresource
    list that is not nil, the result is deeply equal to the source. *)
Lemma Filter_accept_all_copy_witness :
  map_to_list catalog_deployments ≡ₚ map_to_list catalog_deployments
  ∧ validCatalog heap_deployments catalog_deployments
  ∧ (∀ k ps, catalog_deployments !! k = Some ps → ps ≠ [])
  ∧ ∃ r' h',
      Resources.Filter (map_to_list catalog_deployments) Filters.NewEmptyFilter
        heap_deployments = Some (r', h')
      ∧ viewCatalog h' r' = viewCatalog heap_deployments catalog_deployments
      ∧ deepCatalog h' r'
        = nonNilCatalog (deepCatalog heap_deployments catalog_deployments).
Proof.
  split; [reflexivity|]. split; [exact validCatalog_deployments|].
  split; [exact catalog_deployments_nonempty|].
  destruct (Filter_accept_all_copy catalog_deployments
              (map_to_list catalog_deployments) heap_deployments)
    as (r' & h' & Hrun & Hview & Hdeep & _).
  - reflexivity.
  - exact validCatalog_deployments.
  - exact catalog_deployments_nonempty.
  - exists r', h'. split; [exact Hrun|]. split; [exact Hview|exact Hdeep].
Defined.

(** C4 as stated fails on a catalog that [Resources] returns. On the
    announcement of ["apps/v1"] it returns the catalog with the resource
    [deployments], whose subresource list [indexResources] left nil. The
    catalog is valid and its one name has a resource. The accept-all
    filter returns a copy whose subresource list is the empty slice
    [[]*SubResource{}] that [filterSubResources] starts from: the two
    catalogs have the same content, and are not deeply equal. *)
Lemma Filter_accept_all_nil_list_becomes_empty :
  let R := mkResource (Parse.withGroup "v1" deployments) ("apps", "v1")
             (Some (SchemaRef 1)) nilSlice in
  let h := mkHeap [R] [] [] in
  let h' := mkHeap [R; withSubResources emptySlice R] [] [] in
  let r' : Resources := {[ "deployments" := [Some 1] ]} in
  Parse.Resources parser_apps_v1 emptyHeap
  = Some ((Some catalog_deployments, None), h)
  ∧ validCatalog h catalog_deployments
  ∧ (∀ k ps, catalog_deployments !! k = Some ps → ps ≠ [])
  ∧ Resources.Filter (map_to_list catalog_deployments) Filters.NewEmptyFilter h
    = Some (r', h')
  ∧ viewCatalog h' r' = viewCatalog h catalog_deployments
  ∧ deepCatalog h catalog_deployments !! "deployments"
    = Some (Some [(mkView (Parse.withGroup "v1" deployments) ("apps", "v1")
                     (Some (SchemaRef 1)) [], true)])
  ∧ deepCatalog h' r' !! "deployments"
    = Some (Some [(mkView (Parse.withGroup "v1" deployments) ("apps", "v1")
                     (Some (SchemaRef 1)) [], false)])
  ∧ deepCatalog h' r' ≠ deepCatalog h catalog_deployments.
Proof.
  intros R h h' r'.
  split; [vm_compute; reflexivity|]. split.
  { intros k ps Hk. unfold catalog_deployments in Hk.
    apply lookup_singleton_Some in Hk as [<- <-]. vm_compute. eauto. }
  split; [exact catalog_deployments_nonempty|].
  split; [vm_compute; reflexivity|].
  split; [vm_compute; reflexivity|].
  split; [vm_compute; reflexivity|].
  split; [vm_compute; reflexivity|].
  intros Heq. apply (f_equal (λ m, m !! "deployments")) in Heq.
  vm_compute in Heq. discriminate Heq.
Qed.
